(** * Verification of usecase.py: medicine "usecase" enrichment

    A shallow embedding of [src/usecase.py] and the properties of its
    text normaliser, validator, lookup table, query wrapper and batch
    orchestrator.

    Conventions of the embedding.
    - A Python [str] is a [list ascii]; one [ascii] stands for one code
      point in the range U+0000..U+00FF, and the Unicode classifications
      Python uses ([str.lower], [str.strip], the [\w] class of [re]) are
      written out for that range.  Strings holding code points above
      U+00FF are outside the embedding.
    - A pandas cell is an [option]: [None] is NaN.  The columns hold
      text; [name] and [type] always do (a row without a name is outside
      the embedding).
    - A stored table is kept as it was written, and reading it does what
      [pd.read_csv] does to text cells by default: a cell whose text is
      one of the missing-value spellings of pandas 2 is read as NaN.  The
      type inference of pandas for columns of numbers is not modelled.
    - The generative model, the file system and the progress of time are
      the environment: the model is an oracle indexed by the number of the
      call, the file system maps a path to a stored table, and sleeping
      only leaves an event in the trace.  Console output, progress bars
      and the progress log are not modelled; the random lengths of the
      waits are not either.
    - [re] and the retry decorator of the backoff library are modelled
      from their documented behaviour, for the fragment the source
      uses. *)

From Stdlib Require Import Ascii String List Bool Arith Lia.
Import ListNotations.

Local Open Scope list_scope.
Local Open Scope bool_scope.

(** ** Python strings *)

Definition str := list ascii.

(** A string literal of the source. *)
Definition py (s : string) : str := list_ascii_of_string s.

Definition code (c : ascii) : nat := nat_of_ascii c.

Definition between (lo hi n : nat) : bool := (lo <=? n) && (n <=? hi).

(** [str.lower] on one code point below U+0100: A-Z, and the Latin-1
    capitals U+00C0..U+00DE without the multiplication sign U+00D7. *)
Definition lower_char (c : ascii) : ascii :=
  let n := code c in
  if between 65 90 n || (between 192 222 n && negb (n =? 215))
  then ascii_of_nat (n + 32) else c.

Definition lower (s : str) : str := map lower_char s.

(** Python's whitespace ([str.strip()], [str.split()] without argument):
    U+0009..U+000D, U+001C..U+0020, U+0085 and U+00A0. *)
Definition is_space (c : ascii) : bool :=
  let n := code c in
  between 9 13 n || between 28 32 n || (n =? 133) || (n =? 160).

(** The [\w] class of [re] on [str] patterns: alphanumeric code points
    and the underscore. *)
Definition is_word (c : ascii) : bool :=
  let n := code c in
  between 48 57 n || between 65 90 n || (n =? 95) || between 97 122 n
  || (n =? 170) || (n =? 178) || (n =? 179) || (n =? 181)
  || (n =? 185) || (n =? 186) || between 188 190 n
  || between 192 214 n || between 216 246 n || between 248 255 n.

Fixpoint lstrip_by (p : ascii -> bool) (s : str) : str :=
  match s with
  | [] => []
  | c :: t => if p c then lstrip_by p t else s
  end.

Definition rstrip_by (p : ascii -> bool) (s : str) : str :=
  rev (lstrip_by p (rev s)).

Definition strip_by (p : ascii -> bool) (s : str) : str :=
  rstrip_by p (lstrip_by p s).

(** [s.strip()] *)
Definition strip (s : str) : str := strip_by is_space s.

Definition mem_char (chars : str) (c : ascii) : bool :=
  existsb (Ascii.eqb c) chars.

(** [s.strip(chars)] *)
Definition strip_chars (chars : str) (s : str) : str :=
  strip_by (mem_char chars) s.

(** [s.split(sep)] for a one-character separator. *)
Fixpoint split_on (sep : ascii) (s : str) : list str :=
  match s with
  | [] => [[]]
  | c :: t =>
      if Ascii.eqb c sep then [] :: split_on sep t
      else match split_on sep t with
           | h :: r => (c :: h) :: r
           | [] => [[c]]
           end
  end.

(** [sep.join(items)] *)
Fixpoint join (sep : str) (items : list str) : str :=
  match items with
  | [] => []
  | [x] => x
  | x :: t => x ++ sep ++ join sep t
  end.

Fixpoint starts_with (p s : str) : bool :=
  match p, s with
  | [], _ => true
  | _ :: _, [] => false
  | a :: p', b :: s' => Ascii.eqb a b && starts_with p' s'
  end.

(** [p in s] *)
Fixpoint contains (p s : str) : bool :=
  starts_with p s ||
  match s with
  | [] => false
  | _ :: t => contains p t
  end.

Definition str_eqb (a b : str) : bool :=
  (length a =? length b) && starts_with a b.

(** The first word of [s.split()]: leading whitespace is skipped and the
    word runs to the next whitespace. *)
Fixpoint take_word (s : str) : str :=
  match s with
  | [] => []
  | c :: t => if is_space c then [] else c :: take_word t
  end.

Definition split_ws_first (s : str) : option str :=
  match lstrip_by is_space s with
  | [] => None
  | w => Some (take_word w)
  end.

(** ** Regular expressions: the fragment of [re] the source uses

    A backtracking matcher with Python's priorities: alternatives are
    tried left to right, [?] and [*] are greedy.  [prev] is the character
    before the current position, which [\b] looks at. *)

Inductive charset : Type :=
| COne (c : ascii)      (* a literal character *)
| CNot (c : ascii).     (* the class [^c] *)

Inductive regex : Type :=
| Eps
| Chr (cs : charset)
| Star (cs : charset)
| Seq (r1 r2 : regex)
| Alt (r1 r2 : regex)
| Opt (r : regex)
| WordB.

(** Membership of a character in a class; [ic] is [re.IGNORECASE]. *)
Definition in_set (ic : bool) (cs : charset) (x : ascii) : bool :=
  match cs with
  | COne c => if ic then Ascii.eqb (lower_char x) (lower_char c)
              else Ascii.eqb x c
  | CNot c => negb (if ic then Ascii.eqb (lower_char x) (lower_char c)
                    else Ascii.eqb x c)
  end.

Definition word_before (prev : option ascii) : bool :=
  match prev with Some c => is_word c | None => false end.

Definition word_after (s : str) : bool :=
  match s with c :: _ => is_word c | [] => false end.

(** [\b]: exactly one side of the position is a word character. *)
Definition at_boundary (prev : option ascii) (s : str) : bool :=
  xorb (word_before prev) (word_after s).

Definition cont := option ascii -> str -> option str.

Fixpoint star_m (ic : bool) (cs : charset) (prev : option ascii) (s : str)
  (k : cont) : option str :=
  match s with
  | [] => k prev []
  | x :: t =>
      if in_set ic cs x then
        match star_m ic cs (Some x) t k with
        | Some r => Some r
        | None => k prev s
        end
      else k prev s
  end.

Fixpoint rmatch (ic : bool) (r : regex) (prev : option ascii) (s : str)
  (k : cont) : option str :=
  match r with
  | Eps => k prev s
  | Chr cs =>
      match s with
      | x :: t => if in_set ic cs x then k (Some x) t else None
      | [] => None
      end
  | Star cs => star_m ic cs prev s k
  | Seq r1 r2 => rmatch ic r1 prev s (fun p' s' => rmatch ic r2 p' s' k)
  | Alt r1 r2 =>
      match rmatch ic r1 prev s k with
      | Some res => Some res
      | None => rmatch ic r2 prev s k
      end
  | Opt r1 =>
      match rmatch ic r1 prev s k with
      | Some res => Some res
      | None => k prev s
      end
  | WordB => if at_boundary prev s then k prev s else None
  end.

(** The text left after the match that starts at the current position. *)
Definition match_at (ic : bool) (r : regex) (prev : option ascii) (s : str)
  : option str :=
  rmatch ic r prev s (fun _ rest => Some rest).

(** [re.search(r, s)] as a truth value, scanning from the position after
    [prev]. *)
Fixpoint search_from (ic : bool) (r : regex) (prev : option ascii) (s : str)
  : bool :=
  match match_at ic r prev s with
  | Some _ => true
  | None =>
      match s with
      | [] => false
      | x :: t => search_from ic r (Some x) t
      end
  end.

Definition re_search (ic : bool) (r : regex) (s : str) : bool :=
  search_from ic r None s.

(** [re.sub(r, '', s)]: the leftmost match is cut out and the scan goes on
    behind it; [skip] counts the characters of the match still to drop.
    A position where only the empty match exists is copied as it is. *)
Fixpoint sub_from (ic : bool) (r : regex) (skip : nat) (prev : option ascii)
  (s : str) : str :=
  match s with
  | [] => []
  | x :: t =>
      match skip with
      | S n => sub_from ic r n (Some x) t
      | O =>
          match match_at ic r prev s with
          | Some rest =>
              match length s - length rest with
              | O => x :: sub_from ic r 0 (Some x) t
              | S n => sub_from ic r n (Some x) t
              end
          | None => x :: sub_from ic r 0 (Some x) t
          end
      end
  end.

Definition re_sub_empty (ic : bool) (r : regex) (s : str) : str :=
  sub_from ic r 0 None s.

(** Literal text and alternation of several branches. *)
Fixpoint lit_chars (s : str) : regex :=
  match s with
  | [] => Eps
  | [c] => Chr (COne c)
  | c :: t => Seq (Chr (COne c)) (lit_chars t)
  end.

Definition lit (s : string) : regex := lit_chars (py s).

Fixpoint alts (r : regex) (rs : list regex) : regex :=
  match rs with
  | [] => r
  | r' :: rs' => Alt r (alts r' rs')
  end.

(** ** [clean_usecase] *)

(** r'used (in|for|to)|treatment of|indicated for|helps with|treats' *)
Definition re_connectors : regex :=
  alts (Seq (lit "used ") (alts (lit "in") [lit "for"; lit "to"]))
       [lit "treatment of"; lit "indicated for"; lit "helps with";
        lit "treats"].

(** r'(such as|including|like|e\.g\.|i\.e\.)' *)
Definition re_markers : regex :=
  alts (lit "such as") [lit "including"; lit "like"; lit "e.g."; lit "i.e."].

(** r'\([^)]*\)' *)
Definition re_parens : regex :=
  Seq (Chr (COne "(")) (Seq (Star (CNot ")")) (Chr (COne ")"))).

(** r'(it|this)( is| can| may| will)?( be| also)? [^,]*,?' *)
Definition re_it_this : regex :=
  Seq (alts (lit "it") [lit "this"])
  (Seq (Opt (alts (lit " is") [lit " can"; lit " may"; lit " will"]))
  (Seq (Opt (alts (lit " be") [lit " also"]))
  (Seq (Chr (COne " "))
  (Seq (Star (CNot ","))
       (Opt (Chr (COne ","))))))).

Definition keep_item (item : str) : bool :=
  (length item <? 50) && (0 <? length item).

(** Lines 34-40: split at the commas, strip the items, drop the empty
    and the long ones, join again. *)
Definition tidy (text : str) : str :=
  let items := map strip (split_on "," text) in
  let items := filter keep_item items in
  join (py ", ") items.

Definition clean_usecase (text : str) : str :=
  let text := re_sub_empty true re_connectors text in
  let text := re_sub_empty true re_markers text in
  let text := re_sub_empty false re_parens text in
  let text := re_sub_empty true re_it_this text in
  tidy text.

(** ** [is_rate_limit_error]

    The argument is [str(exception)]. *)
Definition is_rate_limit_error (msg : str) : bool :=
  contains (py "429") msg
  || contains (py "quota") (lower msg)
  || contains (py "resource exhausted") (lower msg).

(** ** [validate_usecase] *)

Local Open Scope string_scope.

(** r'\b(is|are|was|were|will|should|could|would|can|may|might|must|has|have|had|does|do|did)\b' *)
Definition modal_verbs : list string :=
  ["is"; "are"; "was"; "were"; "will"; "should"; "could"; "would"; "can";
   "may"; "might"; "must"; "has"; "have"; "had"; "does"; "do"; "did"].

(** r'\b(treat|use|help|provide|reduce|prevent|manage|relieve|alleviate)\b' *)
Definition action_verbs : list string :=
  ["treat"; "use"; "help"; "provide"; "reduce"; "prevent"; "manage";
   "relieve"; "alleviate"].

Local Close Scope string_scope.

Definition word_alts (ws : list string) : regex :=
  match map lit ws with
  | [] => Eps
  | r :: rs => alts r rs
  end.

Definition re_words (ws : list string) : regex :=
  Seq WordB (Seq (word_alts ws) WordB).

Definition sentence_patterns : list regex :=
  [re_words modal_verbs; re_words action_verbs].

Definition validate_usecase (usecase : str) : bool :=
  if 150 <? length usecase then false
  else negb (existsb (fun pattern => re_search true pattern usecase)
                     sentence_patterns).

(** ** Data model *)

(** A pandas cell holding text: [None] is NaN. *)
Definition cell := option str.

(** One record of the dataset. *)
Record Row : Type := mkRow {
  name : str;
  short_composition1 : cell;
  short_composition2 : cell;
  type : str;
  Usecase : cell
}.

Definition DataFrame := list Row.

(** A stored table: whether it has a [Usecase] column, and its records.
    How pandas parses and prints the delimited text is not modelled. *)
Record CsvFile : Type := mkCsv {
  usecase_column : bool;
  records : list Row
}.

Definition with_usecase (v : cell) (r : Row) : Row :=
  mkRow (name r) (short_composition1 r) (short_composition2 r) (type r) v.

(** What the model answers to one call: the text of the response, or an
    exception with its [str(e)]. *)
Inductive outcome : Type :=
| Response (text : str)
| Failure (msg : str).

(** The generative model: the answer to the [n]-th call, given the
    prompt. *)
Definition Oracle := nat -> str -> outcome.

Inductive Event : Type :=
| EvCall (n : nat) (prompt : str)   (* model.generate_content(prompt) *)
| EvBackoff (seconds : nat)         (* the retry decorator sleeps, at most this long *)
| EvQuery (idx : nat)               (* get_medicine_usecase(df.loc[idx]) *)
| EvSave (path : string) (df : DataFrame)   (* df.to_csv(path) *)
| EvBatchDelay                      (* time.sleep(random.uniform(1.5, 5.0)) *)
| EvRowDelay                        (* time.sleep(random.uniform(0.5, 2.0)) *)
| EvRateLimitWait.                  (* time.sleep(random.uniform(60, 120)) *)

(** The environment: the stored tables (the progress log is not among
    them), the number of model calls made so far, and the trace of what
    happened. *)
Record World : Type := mkWorld {
  files : string -> option CsvFile;
  calls : nat;
  trace : list Event
}.

(** ** Exceptions and state *)

Inductive result (A : Type) : Type :=
| Ok (a : A)
| Raised (msg : str).

Arguments Ok {A} a.
Arguments Raised {A} msg.

Definition M (A : Type) : Type := World -> result A * World.

Definition ret {A : Type} (a : A) : M A := fun w => (Ok a, w).

Definition raise {A : Type} (msg : str) : M A := fun w => (Raised msg, w).

Definition bind {A B : Type} (m : M A) (f : A -> M B) : M B :=
  fun w =>
    match m w with
    | (Ok a, w') => f a w'
    | (Raised e, w') => (Raised e, w')
    end.

(** try: m  except Exception as e: h e *)
Definition try_except {A : Type} (m : M A) (h : str -> M A) : M A :=
  fun w =>
    match m w with
    | (Ok a, w') => (Ok a, w')
    | (Raised e, w') => h e w'
    end.

Declare Scope monad_scope.
Delimit Scope monad_scope with monad.
Notation "x <- m ;; k" := (bind m (fun x => k))
  (at level 61, m at next level, right associativity) : monad_scope.
Notation "m ;;; k" := (bind m (fun _ => k))
  (at level 61, right associativity) : monad_scope.
Local Open Scope monad_scope.

Definition write_file (path : string) (f : CsvFile)
  (fs : string -> option CsvFile) : string -> option CsvFile :=
  fun p => if String.eqb p path then Some f else fs p.

(** The world after one more event. *)
Definition logged (e : Event) (w : World) : World :=
  mkWorld (files w) (calls w) (trace w ++ [e]).

Definition emit (e : Event) : M unit :=
  fun w => (Ok tt, logged e w).

(** The world after [df.to_csv(path)]. *)
Definition saved (path : string) (df : DataFrame) (w : World) : World :=
  mkWorld (write_file path (mkCsv true df) (files w)) (calls w)
          (trace w ++ [EvSave path df]).

(** for x in items: s = body x s *)
Fixpoint for_each {A S : Type} (items : list A) (body : A -> S -> M S)
  (s : S) : M S :=
  match items with
  | [] => ret s
  | x :: t => s' <- body x s ;; for_each t body s'
  end.

(** The texts [pd.read_csv] reads as a missing value by default
    (pandas 2): the empty field and eighteen spellings. *)
Definition NA_VALUES : list str :=
  [] :: map py
    [ "#N/A"; "#N/A N/A"; "#NA"; "-1.#IND"; "-1.#QNAN"; "-NaN"; "-nan";
      "1.#IND"; "1.#QNAN"; "<NA>"; "N/A"; "NA"; "NULL"; "NaN"; "None";
      "n/a"; "nan"; "null" ]%string.

Definition is_na (s : str) : bool := existsb (str_eqb s) NA_VALUES.

(** A text cell as [pd.read_csv] reads it. *)
Definition parse_cell (c : cell) : cell :=
  match c with
  | Some s => if is_na s then None else Some s
  | None => None
  end.

Definition parse_row (r : Row) : Row :=
  mkRow (name r) (parse_cell (short_composition1 r))
        (parse_cell (short_composition2 r)) (type r)
        (parse_cell (Usecase r)).

(** pd.read_csv(path), followed by
    if 'Usecase' not in df.columns: df['Usecase'] = None *)
Definition read_csv (path : string) : M DataFrame :=
  fun w =>
    match files w path with
    | None => (Raised (py "FileNotFoundError"), w)
    | Some f =>
        (Ok (map parse_row
               (if usecase_column f then records f
                else map (with_usecase None) (records f))), w)
    end.

(** df.to_csv(path, index=False) *)
Definition to_csv (path : string) (df : DataFrame) : M unit :=
  fun w => (Ok tt, saved path df w).

(** ** [get_medicine_usecase] *)

Definition nl : str := [ascii_of_nat 10].
Definition dq : str := [ascii_of_nat 34].
Definition sq : str := [ascii_of_nat 39].

Definition unknown : str := py "unknown".

(** How an f-string prints a cell: NaN prints as nan. *)
Definition fmt (c : cell) : str :=
  match c with Some s => s | None => py "nan" end.

Definition prompt_of (row : Row) : str :=
  let ind := py "        " in
  nl
  ++ ind ++ py "As a pharmacologist, list ONLY the specific symptoms or diseases treated by this medicine:" ++ nl
  ++ ind ++ nl
  ++ ind ++ py "Medicine Name: " ++ name row ++ nl
  ++ ind ++ py "Active Components: " ++ fmt (short_composition1 row) ++ py " "
         ++ match short_composition2 row with Some s => s | None => [] end ++ nl
  ++ ind ++ py "Medicine Type: " ++ type row ++ nl
  ++ ind ++ nl
  ++ ind ++ py "Format: Provide ONLY a comma-separated list of specific symptoms or diseases." ++ nl
  ++ ind ++ py "Example good response: " ++ dq ++ py "fever, headache, common cold" ++ dq ++ nl
  ++ ind ++ py "Example bad response: " ++ dq
         ++ py "This medicine is used for treatment of fever and related symptoms." ++ dq ++ nl
  ++ ind ++ nl
  ++ ind ++ py "DO NOT write sentences or phrases like " ++ dq ++ py "used for" ++ dq
         ++ py ", " ++ dq ++ py "treats" ++ dq ++ py ", etc." ++ nl
  ++ ind ++ py "DO NOT provide general categories like " ++ dq ++ py "pain relief" ++ dq
         ++ py " - be specific like " ++ dq ++ py "headache, joint pain" ++ dq ++ nl
  ++ ind ++ py "Keep each symptom or disease to 1-3 words when possible." ++ nl
  ++ ind.

Definition is_nil {A : Type} (l : list A) : bool :=
  match l with [] => true | _ :: _ => false end.

Definition is_empty (s : str) : bool := is_nil s.

(** Lines 76-85: what becomes of the text of a response. *)
Definition usecase_of_response (text : str) : str :=
  let usecase := strip_chars (dq ++ sq) (strip text) in
  let usecase := clean_usecase usecase in
  if is_empty usecase then unknown else usecase.

(** The world after one call of the model with [prompt]. *)
Definition called (prompt : str) (w : World) : World :=
  mkWorld (files w) (S (calls w)) (trace w ++ [EvCall (calls w) prompt]).

Section Pipeline.

Variable model : Oracle.

(** response = model.generate_content(prompt); response.text *)
Definition generate_content (prompt : str) : M str :=
  fun w =>
    match model (calls w) prompt with
    | Response text => (Ok text, called prompt w)
    | Failure msg => (Raised msg, called prompt w)
    end.

(** The body of [get_medicine_usecase], without its decorator. *)
Definition get_medicine_usecase_body (row : Row) : M str :=
  try_except
    (text <- generate_content (prompt_of row) ;;
     ret (usecase_of_response text))
    (fun e => if is_rate_limit_error e then raise e else ret unknown).

(** backoff.expo: 1, 2, 4, ... seconds (the library then draws the actual
    wait uniformly below this value). *)
Definition expo (n : nat) : nat := 2 ^ n.

(** The decorator [backoff.on_exception(backoff.expo, Exception,
    max_tries=..., giveup=...)] around [target]: [tries] calls were made
    before this one and [more] may follow it. *)
Fixpoint on_exception {A : Type} (giveup : str -> bool) (more tries : nat)
  (target : M A) : M A :=
  fun w =>
    match target w with
    | (Ok a, w') => (Ok a, w')
    | (Raised e, w') =>
        if giveup e then (Raised e, w')
        else match more with
             | O => (Raised e, w')
             | S m =>
                 (emit (EvBackoff (expo tries)) ;;;
                  on_exception giveup m (S tries) target) w'
             end
    end.

Definition max_tries : nat := 3.

Definition get_medicine_usecase (row : Row) : M str :=
  on_exception (fun e => negb (is_rate_limit_error e)) (max_tries - 1) 0
    (get_medicine_usecase_body row).

(** What one attempt yields, and whether the decorator retries after it. *)
Definition answer_of (o : outcome) : result str :=
  match o with
  | Response text => Ok (usecase_of_response text)
  | Failure msg => if is_rate_limit_error msg then Raised msg else Ok unknown
  end.

Definition retried (o : outcome) : bool :=
  match o with
  | Response _ => false
  | Failure msg => is_rate_limit_error msg
  end.

(** The retry policy in the words of the specification: up to three
    attempts, a further one only after a rate-limit error, with waits of
    at most 1 and 2 seconds in between; the third answer is final. *)
Definition retry_policy (row : Row) (w : World) : result str * World :=
  let p := prompt_of row in
  let n := calls w in
  let w1 := called p w in
  if retried (model n p) then
    let w2 := called p (logged (EvBackoff 1) w1) in
    if retried (model (S n) p) then
      let w3 := called p (logged (EvBackoff 2) w2) in
      (answer_of (model (S (S n)) p), w3)
    else (answer_of (model (S n) p), w2)
  else (answer_of (model n p), w1).

(** ** [process_dataset] *)

(** batch['Usecase'].isna() | (batch['Usecase'] == '') | (batch['Usecase'] == 'unknown') *)
Definition unresolved (c : cell) : bool :=
  match c with
  | None => true
  | Some s => str_eqb s [] || str_eqb s unknown
  end.

(** df.at[k, 'Usecase'] = v, for a label [k] of the index. *)
Fixpoint set_usecase (k : nat) (v : str) (df : DataFrame) : DataFrame :=
  match df, k with
  | [], _ => []
  | r :: t, O => with_usecase (Some v) r :: t
  | r :: t, S k' => r :: set_usecase k' v t
  end.

(** results_dict[idx] = usecase, on a dict kept in insertion order. *)
Fixpoint dict_set (idx : nat) (v : str) (d : list (nat * str))
  : list (nat * str) :=
  match d with
  | [] => [(idx, v)]
  | (k, v') :: t =>
      if k =? idx then (k, v) :: t else (k, v') :: dict_set idx v t
  end.

(** for k, v in results_dict.items(): df.at[k, 'Usecase'] = v *)
Definition apply_results (results_dict : list (nat * str)) (df : DataFrame)
  : DataFrame :=
  fold_left (fun d kv => set_usecase (fst kv) (snd kv) d) results_dict df.

(** The validation of lines 165-169. *)
Definition checked (usecase : str) : str :=
  if negb (validate_usecase usecase) then
    let usecase := clean_usecase usecase in
    if negb (validate_usecase usecase) then unknown else usecase
  else usecase.

Definition LoopState : Type := DataFrame * list (nat * str).

(** Lines 206-217: the periodic save after a row. *)
Definition save_progress (output_file : string) (st : LoopState)
  : M LoopState :=
  let '(df, results_dict) := st in
  if 20 <=? length results_dict then
    let df := apply_results results_dict df in
    to_csv output_file df ;;;
    ret (df, [])
  else ret (df, results_dict).

(** One turn of the loop over [rows_to_process]. *)
Definition process_row (output_file : string) (idx : nat) (st : LoopState)
  : M LoopState :=
  let '(df, results_dict) := st in
  match nth_error df idx with
  | None => raise (py "KeyError")
  | Some row =>
      st1 <- try_except
               (emit (EvQuery idx) ;;;
                usecase <- get_medicine_usecase row ;;
                let usecase := checked usecase in
                emit EvRowDelay ;;;
                ret (df, dict_set idx usecase results_dict))
               (fun e =>
                  if is_rate_limit_error e then
                    let df := apply_results results_dict df in
                    to_csv output_file df ;;;
                    emit EvRateLimitWait ;;;
                    ret (df, [])
                  else ret (df, results_dict)) ;;
      save_progress output_file st1
  end.

Definition rows_to_process (df : DataFrame) (start_idx end_idx : nat)
  : list nat :=
  filter (fun idx => match nth_error df idx with
                     | Some r => unresolved (Usecase r)
                     | None => false
                     end)
         (seq start_idx (end_idx - start_idx)).

(** One turn of the loop over the batches. *)
Definition process_batch (output_file : string) (batch_size total_rows : nat)
  (i : nat) (st : LoopState) : M LoopState :=
  let '(df, results_dict) := st in
  let start_idx := i * batch_size in
  let end_idx := Nat.min (start_idx + batch_size) total_rows in
  let todo := rows_to_process df start_idx end_idx in
  if (length todo =? 0) then ret st
  else
    emit EvBatchDelay ;;;
    st1 <- for_each todo (process_row output_file) st ;;
    let '(df, results_dict) := st1 in
    let st2 := if is_nil results_dict then (df, results_dict)
               else (apply_results results_dict df, []) in
    to_csv output_file (fst st2) ;;;
    ret st2.

Definition process_dataset (input_file output_file : string)
  (batch_size : nat) : M DataFrame :=
  df <- read_csv input_file ;;
  let total_rows := length df in
  if batch_size =? 0 then raise (py "ZeroDivisionError")
  else
    let batch_count := (total_rows + batch_size - 1) / batch_size in
    st <- for_each (seq 0 batch_count)
            (process_batch output_file batch_size total_rows) (df, []) ;;
    ret (fst st).

End Pipeline.

(** ** The lookup table and [get_usecase_from_lookup] *)

Local Open Scope string_scope.

(** The dict, in the order it is written (the order of iteration). *)
Definition COMMON_MEDICINE_USECASES : list (str * str) :=
  map (fun kv => (py (fst kv), py (snd kv)))
  [ ("Augmentin", "bacterial infections, sinusitis, pneumonia, ear infections");
    ("Azithromycin", "bacterial infections, respiratory infections, skin infections");
    ("Amoxycillin", "bacterial infections, bronchitis, pneumonia, tonsillitis");
    ("Paracetamol", "fever, pain, headache");
    ("Ibuprofen", "pain, inflammation, fever, arthritis");
    ("Montelukast", "asthma, allergic rhinitis");
    ("Fexofenadine", "allergies, hay fever, urticaria");
    ("Cetirizine", "allergies, hay fever, urticaria");
    ("Hydroxyzine", "anxiety, itching, allergies");
    ("Levosalbutamol", "asthma, bronchospasm, COPD");
    ("Ambroxol", "cough, bronchitis, respiratory congestion");
    ("Pheniramine", "allergies, hay fever, itching");
    ("Clavulanic Acid", "bacterial infections") ].

Local Close Scope string_scope.

(** d[key] as an option: the value stored under exactly this key. *)
Fixpoint dict_get (key : str) (d : list (str * str)) : option str :=
  match d with
  | [] => None
  | (k, v) :: t => if str_eqb k key then Some v else dict_get key t
  end.

(** The first loop: for key in d: if key.lower() in medicine_name.lower() *)
Fixpoint lookup_by_name (medicine_name : str) (d : list (str * str))
  : option str :=
  match d with
  | [] => None
  | (key, v) :: t =>
      if contains (lower key) (lower medicine_name) then Some v
      else lookup_by_name medicine_name t
  end.

(** active = comp.split()[0] if comp.split() else "" *)
Definition active_of (comp : str) : str :=
  match split_ws_first comp with
  | Some w => w
  | None => []
  end.

(** The second loop, over the compositions. *)
Fixpoint lookup_by_composition (compositions : list cell) : option str :=
  match compositions with
  | [] => None
  | comp :: rest =>
      match comp with
      | Some c =>
          if negb (is_empty c) then
            match dict_get (lower (active_of c)) COMMON_MEDICINE_USECASES with
            | Some v => Some v
            | None => lookup_by_composition rest
            end
          else lookup_by_composition rest
      | None => lookup_by_composition rest
      end
  end.

Definition get_usecase_from_lookup (medicine_name : str)
  (compositions : list cell) : option str :=
  match lookup_by_name medicine_name COMMON_MEDICINE_USECASES with
  | Some v => Some v
  | None => lookup_by_composition compositions
  end.

(** ** [process_dataset_with_fallback] and the entry point *)

(** One turn of the first pass. *)
Definition first_pass_row (row : Row) : Row :=
  if unresolved (Usecase row) then
    match get_usecase_from_lookup (name row)
            [short_composition1 row; short_composition2 row] with
    | Some usecase =>
        if negb (is_empty usecase) then with_usecase (Some usecase) row
        else row
    | None => row
    end
  else row.

Definition process_dataset_with_fallback (model : Oracle)
  (input_file output_file : string) (batch_size : nat) : M DataFrame :=
  df <- read_csv input_file ;;
  let df := map first_pass_row df in
  to_csv output_file df ;;;
  process_dataset model output_file output_file batch_size.

Definition INPUT_FILE : string := "A_Z_medicines_dataset_of_India.csv".
Definition OUTPUT_FILE : string := "a_z_medicines_with_usecases.csv".

(** The [__main__] block, up to the statistics it prints. *)
Definition main (model : Oracle) : M DataFrame :=
  fun w =>
    let input_file :=
      match files w OUTPUT_FILE with
      | Some _ => OUTPUT_FILE
      | None => INPUT_FILE
      end in
    process_dataset_with_fallback model input_file OUTPUT_FILE 50 w.


(** ** Vocabulary of the statements *)

(** What the orchestrator may store: a string the validator accepts, or
    the sentinel. *)
Definition accepted (u : str) : Prop :=
  validate_usecase u = true \/ u = unknown.

(** How a row may differ from the row that was read: not at all, or it
    was unresolved and only its usecase was set, to an accepted value. *)
Definition row_ok (r0 r : Row) : Prop :=
  r = r0 \/
  (unresolved (Usecase r0) = true /\
   exists u, accepted u /\ r = with_usecase (Some u) r0).

Definition rows_ok (df0 df : DataFrame) : Prop :=
  length df = length df0 /\
  forall i r0, nth_error df0 i = Some r0 ->
    exists r, nth_error df i = Some r /\ row_ok r0 r.

(** The row at [idx] was unresolved when the table was read. *)
Definition unresolved_at (df0 : DataFrame) (idx : nat) : Prop :=
  exists r0, nth_error df0 idx = Some r0 /\ unresolved (Usecase r0) = true.

(** What a run of [process_dataset] on the table [df0] may leave in the
    trace: queries for rows that were unresolved, and saves of whole
    tables to the output. *)
Definition event_ok (output_file : string) (df0 : DataFrame) (e : Event)
  : Prop :=
  match e with
  | EvQuery idx => unresolved_at df0 idx
  | EvSave path df => path = output_file /\ rows_ok df0 df
  | _ => True
  end.

(** The events a run added to the trace. *)
Definition added (w w' : World) (evs : list Event) : Prop :=
  trace w' = trace w ++ evs.

(** The invariant of the two loops of [process_dataset], for a run that
    read [df0] in the world [w0] and writes to [output_file]. *)
Definition loop_inv (output_file : string) (df0 : DataFrame) (w0 : World)
  (st : LoopState) (w : World) : Prop :=
  rows_ok df0 (fst st) /\
  (forall k v, In (k, v) (snd st) -> accepted v /\ unresolved_at df0 k) /\
  (forall p, p <> output_file -> files w p = files w0 p) /\
  (exists evs, added w0 w evs /\ Forall (event_ok output_file df0) evs).

(** Between two batches: nothing is pending, and either the output
    holds the current table, or nothing has happened yet and the rows of
    the batches done so far were all resolved. *)
Definition batch_inv (output_file : string) (batch_size : nat)
  (df0 : DataFrame) (w0 : World) (j : nat) (st : LoopState) (w : World)
  : Prop :=
  loop_inv output_file df0 w0 st w /\
  snd st = [] /\
  (files w output_file = Some (mkCsv true (fst st)) \/
   (fst st = df0 /\ w = w0 /\
    forall i r, i < j * batch_size -> nth_error df0 i = Some r ->
                unresolved (Usecase r) = false)).

(** The rows for which the trace records a query, in order. *)
Fixpoint queried (evs : list Event) : list nat :=
  match evs with
  | [] => []
  | EvQuery idx :: t => idx :: queried t
  | _ :: t => queried t
  end.

(** The tables the trace records as saved, in order. *)
Fixpoint saves (evs : list Event) : list DataFrame :=
  match evs with
  | [] => []
  | EvSave _ df :: t => df :: saves t
  | _ :: t => saves t
  end.

(** The usecase row [idx] holds once the pending results are written to
    the table. *)
Definition stored_usecase (idx : nat) (st : LoopState) : option cell :=
  option_map Usecase (nth_error (apply_results (snd st) (fst st)) idx).

(** Worlds and models of the examples. *)
Definition one_file (path : string) (f : CsvFile) : string -> option CsvFile :=
  fun p => if String.eqb p path then Some f else None.

Definition example_row (n : string) (u : cell) : Row :=
  mkRow (py n) (Some (py "Paracetamol (500mg)")) None (py "allopathy") u.

Definition example_world (rows : list Row) : World :=
  mkWorld (one_file "in.csv" (mkCsv true rows)) 0 [].

Definition always_rate_limited : Oracle :=
  fun _ _ => Failure (py "429 Too Many Requests").

Definition always_answers (text : string) : Oracle :=
  fun _ _ => Response (py text).

(** ** What a pattern matches

    [den ic r prev u rest]: the pattern [r] can match exactly the text
    [u] when [prev] is the character before it and [rest] the text behind
    it.  The matcher finds a match at a position exactly when one exists
    in this sense. *)

(** The character before the position reached after reading [u]. *)
Fixpoint last_of (prev : option ascii) (u : str) : option ascii :=
  match u with
  | [] => prev
  | x :: t => last_of (Some x) t
  end.

Fixpoint den (ic : bool) (r : regex) (prev : option ascii) (u rest : str)
  : Prop :=
  match r with
  | Eps => u = []
  | Chr cs => exists x, u = [x] /\ in_set ic cs x = true
  | Star cs => forallb (in_set ic cs) u = true
  | Seq r1 r2 =>
      exists u1 u2, u = u1 ++ u2 /\
                    den ic r1 prev u1 (u2 ++ rest) /\
                    den ic r2 (last_of prev u1) u2 rest
  | Alt r1 r2 => den ic r1 prev u rest \/ den ic r2 prev u rest
  | Opt r1 => den ic r1 prev u rest \/ u = []
  | WordB => u = [] /\ at_boundary prev rest = true
  end.

(** [r] matches somewhere in [s]. *)
Definition matches_in (ic : bool) (r : regex) (s : str) : Prop :=
  exists pre u rest,
    s = pre ++ u ++ rest /\ den ic r (last_of None pre) u rest.

(** The text [w], in any letter case, stands in [s] as a whole word: no
    word character directly before it and none directly behind it. *)
Definition whole_word_in (w s : str) : Prop :=
  exists pre w' post,
    s = pre ++ w' ++ post /\ lower w' = w /\
    word_before (last_of None pre) = false /\ word_after post = false.

(** The connector phrases the specification names. *)
Definition connector_phrases : list string :=
  ["used for"; "treatment of"; "indicated for"; "helps with"; "treats"]%string.

(** Already-clean input in the words of the specification: none of the
    connector phrases, in any letter case, and no parenthetical text. *)
Definition free_of_connectors_and_parentheticals (s : str) : Prop :=
  (forall p, In p connector_phrases -> contains (py p) (lower s) = false) /\
  re_search false re_parens s = false.

(** None of the four patterns that [clean_usecase] removes matches
    anywhere in [s]. *)
Definition pattern_free (s : str) : Prop :=
  re_search true re_connectors s = false /\
  re_search true re_markers s = false /\
  re_search false re_parens s = false /\
  re_search true re_it_this s = false.

(** [u] stands in [x] as a piece of consecutive characters. *)
Definition infix (u x : str) : Prop := exists a b, x = a ++ u ++ b.

(** Static facts about what a pattern can match: the empty text, a text
    holding the character [x], a text starting with [x]. *)
Fixpoint nullable (r : regex) : bool :=
  match r with
  | Eps | WordB | Star _ | Opt _ => true
  | Chr _ => false
  | Seq r1 r2 => nullable r1 && nullable r2
  | Alt r1 r2 => nullable r1 || nullable r2
  end.

Fixpoint may_contain (ic : bool) (r : regex) (x : ascii) : bool :=
  match r with
  | Eps | WordB => false
  | Chr cs | Star cs => in_set ic cs x
  | Seq r1 r2 | Alt r1 r2 => may_contain ic r1 x || may_contain ic r2 x
  | Opt r1 => may_contain ic r1 x
  end.

Fixpoint may_start (ic : bool) (r : regex) (x : ascii) : bool :=
  match r with
  | Eps | WordB => false
  | Chr cs | Star cs => in_set ic cs x
  | Seq r1 r2 => may_start ic r1 x || (nullable r1 && may_start ic r2 x)
  | Alt r1 r2 => may_start ic r1 x || may_start ic r2 x
  | Opt r1 => may_start ic r1 x
  end.

(** The pattern looks at nothing outside the text it matches. *)
Fixpoint context_free (r : regex) : bool :=
  match r with
  | WordB => false
  | Eps | Chr _ | Star _ => true
  | Seq r1 r2 | Alt r1 r2 => context_free r1 && context_free r2
  | Opt r1 => context_free r1
  end.

(** The part of the it/this pattern before [^,]*,? *)
Definition re_it_this_head : regex :=
  Seq (alts (lit "it") [lit "this"])
  (Seq (Opt (alts (lit " is") [lit " can"; lit " may"; lit " will"]))
  (Seq (Opt (alts (lit " be") [lit " also"]))
       (Chr (COne " ")))).

(** An opening parenthesis with a closing one somewhere behind it. *)
Definition open_then_close (s : str) : Prop :=
  exists a b c, s = a ++ "("%char :: b ++ ")"%char :: c.

Fixpoint open_then_close_items (items : list str) : Prop :=
  match items with
  | [] => False
  | x :: t =>
      open_then_close x \/
      (In "("%char x /\ exists y, In y t /\ In ")"%char y) \/
      open_then_close_items t
  end.

(** The invariant of the loops of [process_dataset] about queries and
    calls: the rows queried so far are [qs], each cost one to three calls
    of the model, the rows from [lo] on are as they were read, and nothing
    is pending for them. *)
Definition query_inv (df0 : DataFrame) (w0 : World) (qs : list nat)
  (lo : nat) (st : LoopState) (w : World) : Prop :=
  (exists evs, added w0 w evs /\ queried evs = qs) /\
  calls w0 + length qs <= calls w <= calls w0 + 3 * length qs /\
  length (fst st) = length df0 /\
  (forall i, lo <= i -> nth_error (fst st) i = nth_error df0 i) /\
  (forall k v, In (k, v) (snd st) -> k < lo).

(** ** The statistics of the entry point (lines 316-323) *)

(** enhanced_df['Usecase'].isna().sum() *)
Definition null_count (df : DataFrame) : nat :=
  length (filter (fun r => match Usecase r with
                           | None => true
                           | Some _ => false
                           end) df).

(** (enhanced_df['Usecase'] == 'unknown').sum() *)
Definition unknown_count (df : DataFrame) : nat :=
  length (filter (fun r => match Usecase r with
                           | None => false
                           | Some s => str_eqb s unknown
                           end) df).

(** len(enhanced_df) - null_count - unknown_count, printed as
    "Medicines with usecases". *)
Definition with_usecases (df : DataFrame) : nat :=
  length df - null_count df - unknown_count df.

(** log_file of line 132. *)
Definition LOG_FILE : string := "medicine_usecase_progress.log".

(** Lower case for the letters A-Z only. *)
Definition ascii_lower_char (c : ascii) : ascii :=
  if between 65 90 (code c) then ascii_of_nat (code c + 32) else c.

Definition ascii_lower (s : str) : str := map ascii_lower_char s.

(** The rows of a table all have a name that is read as text. *)
Definition names_are_text (df : DataFrame) : Prop :=
  forall r, In r df -> is_na (name r) = false.

(** * Properties *)

(** ** The normaliser and the validator on concrete inputs *)

(** C4, as the specification states it, fails: on the sentence of the
    example the normaliser does not return the two-item list. *)
Lemma clean_usecase_example_is_not_fever_headache :
  clean_usecase
    (py "This medicine is used for treatment of fever, headache (mild)")
  <> py "fever, headache".
Proof. vm_compute. discriminate. Qed.

(** C4, amended: on "This medicine is used for treatment of fever,
    headache (mild)" [clean_usecase] returns exactly "headache".  The
    pattern that starts at "This" runs up to and including the first comma,
    so "fever," goes with it. *)
Theorem clean_usecase_example_headache :
  clean_usecase
    (py "This medicine is used for treatment of fever, headache (mild)")
  = py "headache".
Proof. vm_compute. reflexivity. Qed.

(** The four substitutions on that input, one after the other. *)
Example clean_usecase_example_steps :
  let t0 := py "This medicine is used for treatment of fever, headache (mild)" in
  let t1 := re_sub_empty true re_connectors t0 in
  let t2 := re_sub_empty true re_markers t1 in
  let t3 := re_sub_empty false re_parens t2 in
  let t4 := re_sub_empty true re_it_this t3 in
  t1 = py "This medicine is   fever, headache (mild)" /\
  t2 = t1 /\
  t3 = py "This medicine is   fever, headache " /\
  t4 = py " headache ".
Proof. vm_compute. repeat split. Qed.

(** C6, as the specification states it, fails: a string of exactly 150
    characters without a verb is accepted. *)
Lemma validate_usecase_accepts_length_150 :
  ~ (forall s : str, 150 <= length s -> validate_usecase s = false).
Proof.
  intros H. specialize (H (repeat "a"%char 150)).
  rewrite repeat_length in H. specialize (H (le_n _)).
  vm_compute in H. discriminate.
Qed.

(** C6, amended: every string of more than 150 characters is rejected by
    [validate_usecase]. *)
Theorem validate_usecase_rejects_over_150 :
  forall s : str, 150 < length s -> validate_usecase s = false.
Proof.
  intros s H. unfold validate_usecase.
  apply Nat.ltb_lt in H. rewrite H. reflexivity.
Qed.

Lemma validate_usecase_rejects_over_150_witness :
  150 < length (repeat "a"%char 151) /\
  validate_usecase (repeat "a"%char 151) = false.
Proof.
  split.
  - rewrite repeat_length. lia.
  - apply validate_usecase_rejects_over_150. rewrite repeat_length. lia.
Defined.

(** ** The lookup table *)

Lemma lower_char_not_capital :
  forall c, between 65 90 (code (lower_char c)) = false.
Proof.
  intros [[] [] [] [] [] [] [] []]; reflexivity.
Qed.

(** No key of the table is the lower-case form of anything: every key
    starts with a capital letter. *)
Lemma dict_get_lower_none :
  forall x, dict_get (lower x) COMMON_MEDICINE_USECASES = None.
Proof.
  intros x.
  assert (E : forall c t, between 65 90 (code c) = true ->
                          str_eqb (c :: t) (lower x) = false).
  { intros c t Hc. unfold str_eqb. destruct x as [|a x]; [reflexivity|].
    simpl. destruct (Ascii.eqb_spec c (lower_char a)) as [->|].
    - rewrite lower_char_not_capital in Hc. discriminate.
    - apply andb_false_r. }
  cbn [COMMON_MEDICINE_USECASES map fst snd py list_ascii_of_string dict_get].
  rewrite !E by reflexivity. reflexivity.
Qed.

(** The loop over the compositions never returns a value. *)
Lemma lookup_by_composition_none :
  forall compositions, lookup_by_composition compositions = None.
Proof.
  induction compositions as [|[c|] rest IH]; cbn [lookup_by_composition]; auto.
  rewrite dict_get_lower_none. destruct (negb (is_empty c)); exact IH.
Qed.

(** When no key occurs in the name, the result is [None], whatever the
    compositions are. *)
Lemma get_usecase_from_lookup_name_only :
  forall medicine_name compositions,
    get_usecase_from_lookup medicine_name compositions
    = lookup_by_name medicine_name COMMON_MEDICINE_USECASES.
Proof.
  intros. unfold get_usecase_from_lookup.
  rewrite lookup_by_composition_none.
  destruct (lookup_by_name _ _); reflexivity.
Qed.

(** C5: the code at the failing input.  The name holds no key and the
    first word of the first composition is the key "Paracetamol", yet the
    lookup answers [None]: the word is lower-cased before it is looked up
    in a dict whose keys are capitalised. *)
Theorem get_usecase_from_lookup_misses_composition :
  lookup_by_name (py "Dolo 650 Tablet") COMMON_MEDICINE_USECASES = None /\
  active_of (py "Paracetamol (650mg)") = py "Paracetamol" /\
  dict_get (py "Paracetamol") COMMON_MEDICINE_USECASES
    = Some (py "fever, pain, headache") /\
  get_usecase_from_lookup (py "Dolo 650 Tablet")
    [Some (py "Paracetamol (650mg)"); None] = None.
Proof. vm_compute. repeat split. Qed.

(** The name branch on the example of the specification. *)
Example get_usecase_from_lookup_augmentin :
  get_usecase_from_lookup (py "Augmentin 625 Duo Tablet") []
  = Some (py "bacterial infections, sinusitis, pneumonia, ear infections").
Proof. vm_compute. reflexivity. Qed.

(** ** The query and its retry policy *)

Section Query.

Variable model : Oracle.

Lemma body_response :
  forall row w text,
    model (calls w) (prompt_of row) = Response text ->
    get_medicine_usecase_body model row w
    = (Ok (usecase_of_response text), called (prompt_of row) w).
Proof.
  intros row w text H.
  unfold get_medicine_usecase_body, try_except, bind, generate_content, ret.
  rewrite H. reflexivity.
Qed.

Lemma body_rate_limit :
  forall row w msg,
    model (calls w) (prompt_of row) = Failure msg ->
    is_rate_limit_error msg = true ->
    get_medicine_usecase_body model row w
    = (Raised msg, called (prompt_of row) w).
Proof.
  intros row w msg H R.
  unfold get_medicine_usecase_body, try_except, bind, generate_content, raise.
  rewrite H, R. reflexivity.
Qed.

Lemma body_other_failure :
  forall row w msg,
    model (calls w) (prompt_of row) = Failure msg ->
    is_rate_limit_error msg = false ->
    get_medicine_usecase_body model row w
    = (Ok unknown, called (prompt_of row) w).
Proof.
  intros row w msg H R.
  unfold get_medicine_usecase_body, try_except, bind, generate_content, ret.
  rewrite H, R. reflexivity.
Qed.

Lemma on_exception_ok :
  forall (A : Type) giveup more tries (target : M A) w a w',
    target w = (Ok a, w') ->
    on_exception giveup more tries target w = (Ok a, w').
Proof.
  intros A giveup more tries target w a w' H.
  destruct more; simpl; rewrite H; reflexivity.
Qed.

Lemma on_exception_retry :
  forall (A : Type) giveup more tries (target : M A) w e w',
    target w = (Raised e, w') ->
    giveup e = false ->
    on_exception giveup (S more) tries target w
    = on_exception giveup more (S tries) target
        (logged (EvBackoff (expo tries)) w').
Proof.
  intros A giveup more tries target w e w' H G.
  simpl. rewrite H, G. reflexivity.
Qed.

Lemma on_exception_last :
  forall (A : Type) giveup tries (target : M A) w e w',
    target w = (Raised e, w') ->
    on_exception giveup 0 tries target w = (Raised e, w').
Proof.
  intros A giveup tries target w e w' H.
  simpl. rewrite H. destruct (giveup e); reflexivity.
Qed.

Lemma body_answer :
  forall row w,
    get_medicine_usecase_body model row w
    = (answer_of (model (calls w) (prompt_of row)), called (prompt_of row) w).
Proof.
  intros row w.
  destruct (model (calls w) (prompt_of row)) as [text|msg] eqn:E; simpl.
  - apply body_response, E.
  - destruct (is_rate_limit_error msg) eqn:R.
    + apply body_rate_limit; auto.
    + apply body_other_failure with (msg := msg); auto.
Qed.

Lemma answer_raised :
  forall o e, answer_of o = Raised e ->
    o = Failure e /\ is_rate_limit_error e = true /\ retried o = true.
Proof.
  intros [text|msg] e; simpl; [discriminate|].
  destruct (is_rate_limit_error msg) eqn:R; [|discriminate].
  intros H. injection H as <-. auto.
Qed.

Lemma answer_not_retried :
  forall o, retried o = false -> exists u, answer_of o = Ok u.
Proof.
  intros [text|msg]; simpl; intros H; [eauto|rewrite H; eauto].
Qed.

Lemma get_medicine_usecase_policy :
  forall row w, get_medicine_usecase model row w = retry_policy model row w.
Proof.
  intros row w. unfold get_medicine_usecase, retry_policy, max_tries.
  set (p := prompt_of row). set (g := fun e => negb (is_rate_limit_error e)).
  cbn [Nat.sub].
  assert (step : forall more tries w0,
             retried (model (calls w0) p) = false ->
             on_exception g more tries (get_medicine_usecase_body model row) w0
             = (answer_of (model (calls w0) p), called p w0)).
  { intros more tries w0 H. destruct (answer_not_retried _ H) as [u Hu].
    rewrite Hu. apply on_exception_ok. rewrite body_answer. fold p.
    rewrite Hu. reflexivity. }
  assert (again : forall more tries w0,
             retried (model (calls w0) p) = true ->
             on_exception g (S more) tries (get_medicine_usecase_body model row) w0
             = on_exception g more (S tries) (get_medicine_usecase_body model row)
                 (logged (EvBackoff (expo tries)) (called p w0))).
  { intros more tries w0 H.
    destruct (model (calls w0) p) as [text|msg] eqn:E; simpl in H; [discriminate|].
    apply on_exception_retry with (e := msg).
    - apply body_rate_limit; auto.
    - unfold g. rewrite H. reflexivity. }
  destruct (retried (model (calls w) p)) eqn:R1; [|apply step, R1].
  rewrite again by exact R1. cbn [expo Nat.pow Nat.mul Nat.add].
  set (w1 := logged (EvBackoff 1) (called p w)).
  assert (C1 : calls w1 = S (calls w)) by reflexivity.
  destruct (retried (model (S (calls w)) p)) eqn:R2.
  - rewrite again by (rewrite C1; exact R2). cbn [expo Nat.pow Nat.mul Nat.add].
    set (w2 := logged (EvBackoff 2) (called p w1)).
    assert (C2 : calls w2 = S (S (calls w))) by reflexivity.
    destruct (answer_of (model (S (S (calls w))) p)) as [u|e] eqn:A.
    + apply on_exception_ok. rewrite body_answer. fold p. rewrite C2, A. reflexivity.
    + apply on_exception_last. rewrite body_answer. fold p. rewrite C2, A. reflexivity.
  - rewrite step by (rewrite C1; exact R2). rewrite C1. reflexivity.
Qed.

End Query.

(** C3: [get_medicine_usecase] follows the retry policy of the
    specification.  (1) An error counts as a rate-limit error exactly when
    its message contains 429, or quota or resource exhausted in any letter
    case.  (2) The function makes up to three attempts, a further one only
    after a rate-limit error, sleeping at most 1 and then 2 seconds in
    between.  (3) Any other exception gives unknown at once, with a single
    call.  (4) An exception leaves the function only after three attempts
    that all failed with a rate-limit error, and it is the third one.
    (5) Never more than three calls are made. *)
Theorem get_medicine_usecase_retries_rate_limit_only :
  forall (model : Oracle) (row : Row) (w : World),
    let p := prompt_of row in
    let n := calls w in
    (forall msg, is_rate_limit_error msg = true <->
       contains (py "429") msg = true \/
       contains (py "quota") (lower msg) = true \/
       contains (py "resource exhausted") (lower msg) = true) /\
    get_medicine_usecase model row w = retry_policy model row w /\
    (forall msg, model n p = Failure msg -> is_rate_limit_error msg = false ->
       get_medicine_usecase model row w = (Ok unknown, called p w)) /\
    (forall e w', get_medicine_usecase model row w = (Raised e, w') ->
       is_rate_limit_error e = true /\
       retried (model n p) = true /\ retried (model (S n) p) = true /\
       model (S (S n)) p = Failure e /\
       w' = called p (logged (EvBackoff 2)
              (called p (logged (EvBackoff 1) (called p w))))) /\
    (forall r w', get_medicine_usecase model row w = (r, w') ->
       calls w' <= n + 3).
Proof.
  intros model row w p n. split; [|split; [|split; [|split]]].
  - intros msg. unfold is_rate_limit_error.
    rewrite !orb_true_iff. tauto.
  - apply get_medicine_usecase_policy.
  - intros msg H R. rewrite get_medicine_usecase_policy. unfold retry_policy.
    fold p n. rewrite H. simpl. rewrite R. reflexivity.
  - intros e w'. rewrite get_medicine_usecase_policy. unfold retry_policy.
    fold p n. intros H.
    destruct (retried (model n p)) eqn:R1.
    + destruct (retried (model (S n) p)) eqn:R2.
      * injection H as A <-. apply answer_raised in A.
        destruct A as (A1 & A2 & _). auto.
      * injection H as A _. apply answer_raised in A.
        destruct A as (_ & _ & A). congruence.
    + injection H as A _. apply answer_raised in A.
      destruct A as (_ & _ & A). congruence.
  - intros r w'. rewrite get_medicine_usecase_policy. unfold retry_policy.
    fold p n. intros H.
    destruct (retried (model n p)); [destruct (retried (model (S n) p))|];
      injection H as _ <-; simpl; lia.
Qed.

(** ** The orchestrator *)

Lemma for_each_inv :
  forall (A S : Type) (P : S -> World -> Prop) (items : list A)
         (body : A -> S -> M S),
    (forall x s w, In x items -> P s w ->
       exists s' w', body x s w = (Ok s', w') /\ P s' w') ->
    forall s w, P s w ->
      exists s' w', for_each items body s w = (Ok s', w') /\ P s' w'.
Proof.
  intros A S P items body. induction items as [|x t IH]; intros Hb s w Hp.
  - exists s, w. split; [reflexivity|assumption].
  - destruct (Hb x s w (or_introl eq_refl) Hp) as (s1 & w1 & E1 & P1).
    destruct (IH (fun y s w Hy => Hb y s w (or_intror Hy)) s1 w1 P1)
      as (s2 & w2 & E2 & P2).
    exists s2, w2. split; [|assumption].
    cbn [for_each]. unfold bind. rewrite E1. exact E2.
Qed.

Lemma for_each_seq_inv :
  forall (S : Type) (P : nat -> S -> World -> Prop)
         (body : nat -> S -> M S) (len start : nat),
    (forall j s w, start <= j < start + len -> P j s w ->
       exists s' w', body j s w = (Ok s', w') /\ P (Datatypes.S j) s' w') ->
    forall s w, P start s w ->
      exists s' w',
        for_each (seq start len) body s w = (Ok s', w') /\
        P (start + len) s' w'.
Proof.
  intros S P body len. induction len as [|len IH]; intros start Hb s w Hp.
  - exists s, w. rewrite Nat.add_0_r. split; [reflexivity|assumption].
  - destruct (Hb start s w ltac:(lia) Hp) as (s1 & w1 & E1 & P1).
    destruct (IH (Datatypes.S start)
                 (fun j s w Hj => Hb j s w ltac:(lia)) s1 w1 P1)
      as (s2 & w2 & E2 & P2).
    exists s2, w2. split.
    + cbn [seq for_each]. unfold bind. rewrite E1. exact E2.
    + replace (start + Datatypes.S len) with (Datatypes.S start + len) by lia.
      exact P2.
Qed.

Lemma set_usecase_length :
  forall df k v, length (set_usecase k v df) = length df.
Proof.
  induction df as [|r t IH]; intros [|k] v; simpl; auto.
Qed.

Lemma nth_error_set_usecase_same :
  forall df k v r,
    nth_error df k = Some r ->
    nth_error (set_usecase k v df) k = Some (with_usecase (Some v) r).
Proof.
  induction df as [|r0 t IH]; intros [|k] v r; simpl; try discriminate.
  - intros H. injection H as ->. reflexivity.
  - apply IH.
Qed.

Lemma nth_error_set_usecase_other :
  forall df k v i,
    i <> k -> nth_error (set_usecase k v df) i = nth_error df i.
Proof.
  induction df as [|r0 t IH]; intros [|k] v [|i] H; simpl; auto;
    congruence.
Qed.

Lemma checked_accepted : forall u, accepted (checked u).
Proof.
  intros u. unfold checked, accepted.
  destruct (validate_usecase u) eqn:V; simpl; [left; exact V|].
  destruct (validate_usecase (clean_usecase u)) eqn:V'; simpl; auto.
Qed.

Lemma dict_set_in :
  forall idx v d k v',
    In (k, v') (dict_set idx v d) -> (k = idx /\ v' = v) \/ In (k, v') d.
Proof.
  induction d as [|[k0 v0] t IH]; intros k v' H; simpl in H.
  - destruct H as [H|[]]. injection H as <- <-. auto.
  - destruct (Nat.eqb_spec k0 idx) as [->|Hne].
    + destruct H as [H|H]; [injection H as <- <-; auto|right; right; exact H].
    + destruct H as [H|H]; [right; left; exact H|].
      destruct (IH _ _ H); auto. right. right. assumption.
Qed.

Section Orchestrator.

Variable model : Oracle.
Variable output_file : string.
Variable df0 : DataFrame.
Variable w0 : World.

Local Abbreviation inv := (loop_inv output_file df0 w0).

Lemma rows_ok_refl : rows_ok df0 df0.
Proof.
  split; [reflexivity|]. intros i r0 H. exists r0. split; [assumption|].
  left. reflexivity.
Qed.

Lemma rows_ok_set :
  forall df k v,
    rows_ok df0 df -> accepted v -> unresolved_at df0 k ->
    rows_ok df0 (set_usecase k v df).
Proof.
  intros df k v [Hlen Hrows] Hv (rk & Hk & Uk). split.
  - rewrite set_usecase_length. exact Hlen.
  - intros i r0 Hi. destruct (Hrows i r0 Hi) as (r & Hr & Hok).
    destruct (Nat.eq_dec i k) as [->|Hne].
    + exists (with_usecase (Some v) r). split.
      * apply nth_error_set_usecase_same. exact Hr.
      * right. assert (r0 = rk) by congruence. subst rk.
        split; [exact Uk|]. exists v. split; [exact Hv|].
        destruct Hok as [->|(_ & u & _ & ->)]; reflexivity.
    + exists r. split; [|exact Hok].
      rewrite nth_error_set_usecase_other by exact Hne. exact Hr.
Qed.

Lemma rows_ok_apply :
  forall rd df,
    rows_ok df0 df ->
    (forall k v, In (k, v) rd -> accepted v /\ unresolved_at df0 k) ->
    rows_ok df0 (apply_results rd df).
Proof.
  unfold apply_results.
  induction rd as [|[k v] t IH]; intros df Hdf Hrd; simpl; [exact Hdf|].
  apply IH.
  - destruct (Hrd k v (or_introl eq_refl)). apply rows_ok_set; assumption.
  - intros k' v' H. apply Hrd. right. exact H.
Qed.

Lemma inv_world :
  forall st w w' evs,
    inv st w ->
    (forall p, p <> output_file -> files w' p = files w p) ->
    added w w' evs -> Forall (event_ok output_file df0) evs ->
    inv st w'.
Proof.
  intros st w w' evs (H1 & H2 & H3 & evs0 & H4 & H5) Hf Ha He.
  split; [exact H1|split; [exact H2|split]].
  - intros p Hp. rewrite Hf by exact Hp. apply H3, Hp.
  - exists (evs0 ++ evs). split.
    + unfold added in *. rewrite Ha, H4, app_assoc. reflexivity.
    + apply Forall_app. split; assumption.
Qed.

Lemma inv_logged :
  forall st w e, inv st w -> event_ok output_file df0 e -> inv st (logged e w).
Proof.
  intros st w e H He.
  apply inv_world with (w := w) (evs := [e]);
    [exact H|reflexivity|reflexivity|].
  constructor; [exact He|constructor].
Qed.

Lemma inv_saved :
  forall st w df,
    inv st w -> rows_ok df0 df -> inv st (saved output_file df w).
Proof.
  intros st w df H Hdf.
  apply inv_world with (w := w) (evs := [EvSave output_file df]);
    [exact H| |reflexivity|].
  - intros p Hp. simpl. unfold write_file.
    destruct (String.eqb_spec p output_file); [contradiction|reflexivity].
  - constructor; [|constructor]. split; [reflexivity|exact Hdf].
Qed.

Lemma inv_state :
  forall st st' w,
    inv st w ->
    rows_ok df0 (fst st') ->
    (forall k v, In (k, v) (snd st') -> accepted v /\ unresolved_at df0 k) ->
    inv st' w.
Proof.
  intros st st' w (_ & _ & H3 & H4) H1 H2.
  split; [exact H1|split; [exact H2|split; assumption]].
Qed.

Lemma inv_flush :
  forall df rd w, inv (df, rd) w -> inv (apply_results rd df, []) w.
Proof.
  intros df rd w H. apply inv_state with (st := (df, rd)); [exact H| |].
  - destruct H as (H1 & H2 & _). apply rows_ok_apply; assumption.
  - intros k v [].
Qed.

(** The query changes no file and adds only calls and waits to the
    trace; what it raises is a rate-limit error. *)
Lemma get_medicine_usecase_world :
  forall row w r w',
    get_medicine_usecase model row w = (r, w') ->
    files w' = files w /\
    (exists evs, added w w' evs /\
                 Forall (event_ok output_file df0) evs /\
                 forall i, ~ In (EvQuery i) evs) /\
    (forall e, r = Raised e -> is_rate_limit_error e = true).
Proof.
  intros row w r w'. rewrite get_medicine_usecase_policy. unfold retry_policy.
  set (p := prompt_of row). set (n := calls w). intros H.
  assert (R : forall o e, answer_of o = Raised e -> is_rate_limit_error e = true).
  { intros o e A. apply answer_raised in A. tauto. }
  destruct (retried (model n p)); [destruct (retried (model (S n) p))|];
    injection H as <- <-; (split; [reflexivity|split; [|eapply R; eauto]]).
  - exists [EvCall n p; EvBackoff 1; EvCall (S n) p; EvBackoff 2;
            EvCall (S (S n)) p].
    split; [|split].
    + unfold added. simpl. rewrite <- !app_assoc. reflexivity.
    + repeat constructor.
    + intros i Hi. simpl in Hi. intuition discriminate.
  - exists [EvCall n p; EvBackoff 1; EvCall (S n) p]. split; [|split].
    + unfold added. simpl. rewrite <- !app_assoc. reflexivity.
    + repeat constructor.
    + intros i Hi. simpl in Hi. intuition discriminate.
  - exists [EvCall n p]. split; [|split].
    + reflexivity.
    + repeat constructor.
    + intros i Hi. simpl in Hi. intuition discriminate.
Qed.

Lemma save_progress_inv :
  forall st w,
    inv st w ->
    exists st' w', save_progress output_file st w = (Ok st', w') /\ inv st' w'.
Proof.
  intros [df rd] w H. unfold save_progress.
  destruct (20 <=? length rd).
  - eexists _, _. split; [reflexivity|].
    apply inv_saved; [apply inv_flush; exact H|].
    destruct H as (H1 & H2 & _). apply rows_ok_apply; assumption.
  - eexists _, _. split; [reflexivity|exact H].
Qed.

Lemma process_row_eq_ok :
  forall idx df rd row w u w1,
    nth_error df idx = Some row ->
    get_medicine_usecase model row (logged (EvQuery idx) w) = (Ok u, w1) ->
    process_row model output_file idx (df, rd) w
    = save_progress output_file (df, dict_set idx (checked u) rd)
        (logged EvRowDelay w1).
Proof.
  intros idx df rd row w u w1 Hrow G.
  unfold process_row. rewrite Hrow.
  unfold bind, try_except, emit, ret. rewrite G. reflexivity.
Qed.

Lemma process_row_eq_raised :
  forall idx df rd row w e w1,
    nth_error df idx = Some row ->
    get_medicine_usecase model row (logged (EvQuery idx) w) = (Raised e, w1) ->
    is_rate_limit_error e = true ->
    process_row model output_file idx (df, rd) w
    = (Ok (apply_results rd df, []),
       logged EvRateLimitWait (saved output_file (apply_results rd df) w1)).
Proof.
  intros idx df rd row w e w1 Hrow G R.
  unfold process_row. rewrite Hrow.
  unfold bind, try_except, emit, ret, to_csv. rewrite G, R. reflexivity.
Qed.

Lemma process_row_inv :
  forall idx st w,
    inv st w -> unresolved_at df0 idx ->
    exists st' w',
      process_row model output_file idx st w = (Ok st', w') /\ inv st' w'.
Proof.
  intros idx [df rd] w H U.
  assert (Hrow : exists row, nth_error df idx = Some row).
  { destruct H as ((_ & Hr) & _). destruct U as (r0 & Hr0 & _).
    destruct (Hr idx r0 Hr0) as (r & Hr' & _). eauto. }
  destruct Hrow as (row & Hrow).
  destruct (get_medicine_usecase model row (logged (EvQuery idx) w))
    as [[u|e] w1] eqn:G;
    destruct (get_medicine_usecase_world _ _ _ _ G)
      as (Hf & (evs & Ha & He & _) & HR).
  - rewrite (process_row_eq_ok _ _ _ _ _ _ _ Hrow G).
    apply save_progress_inv. apply inv_logged; [|exact I].
    apply inv_state with (st := (df, rd)).
    + apply inv_world with (w := logged (EvQuery idx) w) (evs := evs);
        [apply inv_logged; assumption|intros; rewrite Hf; reflexivity
        |exact Ha|exact He].
    + destruct H as (H1 & _). exact H1.
    + intros k v Hin. apply dict_set_in in Hin.
      destruct Hin as [[-> ->]|Hin].
      * split; [apply checked_accepted|exact U].
      * destruct H as (_ & H2 & _). apply H2, Hin.
  - rewrite (process_row_eq_raised _ _ _ _ _ _ _ Hrow G (HR e eq_refl)).
    eexists _, _. split; [reflexivity|].
    assert (Hfl : inv (apply_results rd df, []) w1).
    { apply inv_flush.
      apply inv_world with (w := logged (EvQuery idx) w) (evs := evs);
        [apply inv_logged; assumption|intros; rewrite Hf; reflexivity
        |exact Ha|exact He]. }
    apply inv_logged; [|exact I]. apply inv_saved; [exact Hfl|].
    destruct Hfl as (H1 & _). exact H1.
Qed.

Lemma current_unresolved :
  forall df idx row,
    rows_ok df0 df -> nth_error df idx = Some row ->
    unresolved (Usecase row) = true -> unresolved_at df0 idx.
Proof.
  intros df idx row [Hlen Hr] Hrow U.
  assert (Hlt : idx < length df0).
  { rewrite <- Hlen. apply nth_error_Some. congruence. }
  destruct (nth_error df0 idx) as [r0|] eqn:E;
    [|apply nth_error_None in E; lia].
  exists r0. split; [exact E|].
  destruct (Hr idx r0 E) as (r & Hr' & Hok).
  assert (r = row) by congruence. subst r.
  destruct Hok as [->|[U0 _]]; assumption.
Qed.

Lemma rows_to_process_in :
  forall df a b idx,
    In idx (rows_to_process df a b) <->
    (a <= idx < b /\
     exists row, nth_error df idx = Some row /\
                 unresolved (Usecase row) = true).
Proof.
  intros df a b idx. unfold rows_to_process.
  rewrite filter_In, in_seq. split.
  - intros [Hr Hp]. split; [lia|].
    destruct (nth_error df idx) as [row|]; [eauto|discriminate].
  - intros [Hr (row & Hrow & U)]. split; [lia|]. rewrite Hrow. exact U.
Qed.

Section Batches.

Variable batch_size : nat.

Local Abbreviation binv := (batch_inv output_file batch_size df0 w0).

Lemma process_batch_inv :
  forall j st w,
    binv j st w ->
    exists st' w',
      process_batch model output_file batch_size (length df0) j st w
      = (Ok st', w') /\ binv (S j) st' w'.
Proof.
  intros j [df rd] w (Hinv & Hrd & Hfile). simpl in Hrd. subst rd.
  unfold process_batch.
  set (start_idx := j * batch_size).
  set (end_idx := Nat.min (start_idx + batch_size) (length df0)).
  set (todo := rows_to_process df start_idx end_idx).
  assert (Htodo : forall idx, In idx todo -> unresolved_at df0 idx).
  { intros idx Hin. apply rows_to_process_in in Hin.
    destruct Hin as (_ & row & Hrow & U).
    destruct Hinv as (H1 & _). eapply current_unresolved; eauto. }
  destruct (length todo =? 0) eqn:E.
  - exists (df, []), w. split; [reflexivity|].
    split; [exact Hinv|split; [reflexivity|]].
    destruct Hfile as [Hfile|(Hdf & Hw & Hres)]; [left; exact Hfile|right].
    simpl in Hdf. subst df. split; [reflexivity|split; [exact Hw|]].
    intros i r Hi Hr.
    destruct (Nat.lt_ge_cases i (j * batch_size)) as [Hlt|Hge];
      [eapply Hres; eauto|].
    destruct (unresolved (Usecase r)) eqn:U; [|reflexivity].
    assert (Hin : In i todo).
    { apply rows_to_process_in. split; [|eauto].
      assert (i < length df0) by (apply nth_error_Some; congruence).
      unfold end_idx, start_idx. simpl in Hi. lia. }
    apply Nat.eqb_eq in E. destruct todo; [destruct Hin|discriminate].
  - destruct (for_each_inv nat LoopState (loop_inv output_file df0 w0) todo
                (process_row model output_file)) with
      (s := (df, @nil (nat * str))) (w := logged EvBatchDelay w)
      as ([df1 rd1] & w1 & E1 & Hinv1).
    { intros idx s w' Hin Hs. apply process_row_inv; auto. }
    { apply inv_logged; [exact Hinv|exact I]. }
    unfold bind, emit. rewrite E1. unfold to_csv, ret.
    eexists _, _. split; [reflexivity|].
    assert (Hfl : inv (if is_nil rd1 then (df1, rd1)
                       else (apply_results rd1 df1, [])) w1).
    { destruct rd1; cbn [is_nil]; [exact Hinv1|apply inv_flush; exact Hinv1]. }
    split; [|split].
    + apply inv_saved; [exact Hfl|]. destruct Hfl as (H1 & _). exact H1.
    + destruct rd1; reflexivity.
    + left. simpl. unfold write_file. rewrite String.eqb_refl. reflexivity.
Qed.

Lemma batches_cover :
  batch_size <> 0 ->
  length df0 <= (length df0 + batch_size - 1) / batch_size * batch_size.
Proof.
  intros Hb.
  pose proof (Nat.div_mod_eq (length df0 + batch_size - 1) batch_size) as D.
  pose proof (Nat.mod_upper_bound (length df0 + batch_size - 1) batch_size Hb).
  lia.
Qed.

Lemma process_dataset_inv :
  forall input_file,
    read_csv input_file w0 = (Ok df0, w0) ->
    batch_size <> 0 ->
    exists df w',
      process_dataset model input_file output_file batch_size w0
      = (Ok df, w') /\
      binv ((length df0 + batch_size - 1) / batch_size) (df, []) w'.
Proof.
  intros input_file Hread Hb.
  unfold process_dataset, bind. rewrite Hread.
  destruct (Nat.eqb_spec batch_size 0) as [|_]; [contradiction|].
  destruct (for_each_seq_inv LoopState binv
              (process_batch model output_file batch_size (length df0))
              ((length df0 + batch_size - 1) / batch_size) 0)
    with (s := (df0, @nil (nat * str))) (w := w0)
    as ([df rd] & w' & E & Hb').
  { intros j s w _ Hs. apply process_batch_inv. exact Hs. }
  { split; [|split; [reflexivity|]].
    - split; [apply rows_ok_refl|]. split; [intros k v []|].
      split; [reflexivity|]. exists []. split; [|constructor].
      unfold added. rewrite app_nil_r. reflexivity.
    - right. split; [reflexivity|split; [reflexivity|]].
      intros i r Hi. simpl in Hi. lia. }
  rewrite E. unfold ret. simpl fst.
  assert (rd = []) by (destruct Hb' as (_ & Hrd & _); exact Hrd). subst rd.
  exists df, w'. split; [reflexivity|exact Hb'].
Qed.

End Batches.

End Orchestrator.

(** ** What a run of [process_dataset] guarantees *)

Lemma read_csv_world :
  forall path w r w', read_csv path w = (r, w') -> w' = w.
Proof.
  intros path w r w'. unfold read_csv.
  destruct (files w path); intros H; injection H as _ <-; reflexivity.
Qed.

Lemma read_csv_length :
  forall path w df f,
    read_csv path w = (Ok df, w) -> files w path = Some f ->
    length (records f) = length df.
Proof.
  intros path w df f. unfold read_csv. intros H Hf. rewrite Hf in H.
  injection H as <-. rewrite length_map.
  destruct (usecase_column f); [reflexivity|].
  rewrite length_map. reflexivity.
Qed.

(** A run that returns has read its input and had a batch size; its
    final state satisfies the invariant between batches. *)
Lemma process_dataset_returns :
  forall model input_file output_file batch_size w df w',
    process_dataset model input_file output_file batch_size w = (Ok df, w') ->
    exists df0,
      read_csv input_file w = (Ok df0, w) /\ batch_size <> 0 /\
      batch_inv output_file batch_size df0 w
        ((length df0 + batch_size - 1) / batch_size) (df, []) w'.
Proof.
  intros model input_file output_file batch_size w df w' H.
  destruct (read_csv input_file w) as [[df0|e] w1] eqn:R.
  - pose proof (read_csv_world _ _ _ _ R) as ->.
    exists df0. split; [reflexivity|].
    destruct (Nat.eq_dec batch_size 0) as [->|Hb].
    + unfold process_dataset, bind in H. rewrite R in H. discriminate.
    + split; [exact Hb|].
      destruct (process_dataset_inv model output_file df0 w batch_size
                  input_file R Hb) as (df' & w'' & E & Hinv).
      rewrite E in H. injection H as <- <-. exact Hinv.
  - unfold process_dataset, bind in H. rewrite R in H. discriminate.
Qed.

Lemma in_saves :
  forall evs p d, In (EvSave p d) evs -> In d (saves evs).
Proof.
  induction evs as [|e t IH]; intros p d H; [destruct H|].
  destruct H as [->|H]; [left; reflexivity|].
  destruct e; simpl; eauto.
Qed.

Lemma in_queried :
  forall evs i, In i (queried evs) <-> In (EvQuery i) evs.
Proof.
  induction evs as [|e t IH]; intros i; [reflexivity|].
  destruct e; simpl; rewrite IH; split;
    try (intros [H|H]; [first [discriminate|injection H as ->; auto]|auto]);
    try (intros [->|H]; auto); auto.
Qed.

(** C1, as the specification states it, fails: on a table whose rows are
    all resolved [process_dataset] finishes without writing anything.  One
    row is read; the output still does not exist afterwards and the trace
    holds no save. *)
Lemma process_dataset_may_write_nothing :
  let row := example_row "Crocin" (Some (py "fever")) in
  let w := example_world [row] in
  read_csv "in.csv" w = (Ok [row], w) /\
  process_dataset always_rate_limited "in.csv" "out.csv" 50 w = (Ok [row], w) /\
  files w "out.csv" = None /\
  saves (trace w) = [].
Proof. vm_compute. repeat split. Qed.

(** C1, amended: when [process_dataset] finishes, the table it returns
    has as many rows as were read, and so has every table it wrote, always
    to the output; the output holds the returned table whenever some row
    was unresolved when the run started, and a table of as many rows as
    were read whenever the output is the input file (when no row needs
    processing nothing is written); and every row is the row that was
    read, or was unresolved and differs from it only in a usecase that
    [validate_usecase] accepts or that is the sentinel. *)
Theorem process_dataset_checkpoint :
  forall model input_file output_file batch_size w df w',
    process_dataset model input_file output_file batch_size w = (Ok df, w') ->
    exists df0 evs,
      read_csv input_file w = (Ok df0, w) /\
      added w w' evs /\
      length df = length df0 /\
      (forall p d, In (EvSave p d) evs ->
                   p = output_file /\ length d = length df0) /\
      ((exists i, unresolved_at df0 i) ->
       files w' output_file = Some (mkCsv true df)) /\
      (input_file = output_file ->
       exists f, files w' output_file = Some f /\
                 length (records f) = length df0) /\
      (forall i r0, nth_error df0 i = Some r0 ->
         exists r, nth_error df i = Some r /\
           (r = r0 \/
            (unresolved (Usecase r0) = true /\
             exists u, (validate_usecase u = true \/ u = unknown) /\
                       r = with_usecase (Some u) r0))).
Proof.
  intros model input_file output_file batch_size w df w' H.
  destruct (process_dataset_returns _ _ _ _ _ _ _ H)
    as (df0 & Hread & Hb & (Hrows & _ & _ & evs & Ha & He) & _ & Hfile).
  simpl fst in *.
  exists df0, evs. split; [exact Hread|split; [exact Ha|]].
  split; [apply Hrows|]. split; [|split; [|split]].
  - intros p d Hin. rewrite Forall_forall in He.
    destruct (He _ Hin) as [-> [Hl _]]. auto.
  - intros (i & r0 & Hr0 & U).
    destruct Hfile as [Hf|(_ & _ & Hres)]; [exact Hf|].
    assert (i < length df0) by (apply nth_error_Some; congruence).
    pose proof (batches_cover df0 batch_size Hb).
    rewrite (Hres i r0) in U by (auto; lia). discriminate.
  - intros <-. destruct Hfile as [Hf|(Hdf & -> & _)].
    + eexists. split; [exact Hf|apply Hrows].
    + destruct (files w input_file) as [f|] eqn:F.
      * exists f. split; [reflexivity|].
        eapply read_csv_length; eauto.
      * unfold read_csv in Hread. rewrite F in Hread. discriminate.
  - apply Hrows.
Qed.

Lemma process_dataset_checkpoint_witness :
  let row := example_row "Crocin" None in
  let w := example_world [row] in
  exists df0 evs,
    read_csv "in.csv" w = (Ok df0, w) /\
    added w (snd (process_dataset (always_answers "fever, headache")
                    "in.csv" "out.csv" 50 w)) evs /\
    length [with_usecase (Some (py "fever, headache")) row] = length df0.
Proof.
  intros row w.
  destruct (process_dataset_checkpoint (always_answers "fever, headache")
              "in.csv" "out.csv" 50 w
              [with_usecase (Some (py "fever, headache")) row]
              (snd (process_dataset (always_answers "fever, headache")
                      "in.csv" "out.csv" 50 w)))
    as (df0 & evs & H1 & H2 & H3 & _).
  - vm_compute. reflexivity.
  - exists df0, evs. auto.
Defined.

(** ** Rate-limit errors in the row loop *)

(** C2, as the specification states it, fails: with a model that always
    answers with a rate-limit error, the query for the first row raises
    after three calls, and the run does not halt there: it goes on to the
    second row, makes three more calls, and returns. *)
Lemma rate_limit_error_does_not_halt_the_run :
  let r0 := example_row "Crocin" None in
  let r1 := example_row "Calpol" None in
  let w := example_world [r0; r1] in
  let run := process_dataset always_rate_limited "in.csv" "out.csv" 50 w in
  fst (get_medicine_usecase always_rate_limited r0 w)
    = Raised (py "429 Too Many Requests") /\
  calls (snd (get_medicine_usecase always_rate_limited r0 w)) = 3 /\
  fst run = Ok [r0; r1] /\
  queried (trace (snd run)) = [0; 1] /\
  calls (snd run) = 6 /\
  files (snd run) "out.csv" = Some (mkCsv true [r0; r1]).
Proof. vm_compute. repeat split. Qed.

(** C2, amended: an error that leaves [get_medicine_usecase] (a rate-limit
    error whose retries are used up) is caught in the row loop: the
    pending results are written to the table and saved to the output, and
    the loop goes on with an empty dict; and no answer of the model halts
    the run: [process_dataset] returns whenever its input file exists and
    the batch size is not zero. *)
Theorem rate_limit_error_is_handled_in_the_row_loop :
  forall model input_file output_file batch_size w,
    (forall idx df results_dict row e w1,
       nth_error df idx = Some row ->
       get_medicine_usecase model row (logged (EvQuery idx) w)
         = (Raised e, w1) ->
       is_rate_limit_error e = true /\
       process_row model output_file idx (df, results_dict) w
       = (Ok (apply_results results_dict df, []),
          logged EvRateLimitWait
            (saved output_file (apply_results results_dict df) w1))) /\
    (files w input_file <> None -> batch_size <> 0 ->
     exists df w',
       process_dataset model input_file output_file batch_size w
       = (Ok df, w')).
Proof.
  intros model input_file output_file batch_size w. split.
  - intros idx df rd row e w1 Hrow G.
    destruct (get_medicine_usecase_world model output_file df _ _ _ _ G)
      as (_ & _ & HR).
    specialize (HR e eq_refl). split; [exact HR|].
    apply process_row_eq_raised with (row := row) (e := e); assumption.
  - intros Hf Hb.
    destruct (files w input_file) as [f|] eqn:F; [|contradiction].
    destruct (process_dataset_inv model output_file
                (map parse_row
                   (if usecase_column f then records f
                    else map (with_usecase None) (records f)))
                w batch_size input_file) as (df & w' & E & _).
    + unfold read_csv. rewrite F. reflexivity.
    + exact Hb.
    + eauto.
Qed.

Lemma rate_limit_error_is_handled_in_the_row_loop_witness :
  let r0 := example_row "Crocin" None in
  let w := example_world [r0] in
  exists df w',
    process_dataset always_rate_limited "in.csv" "out.csv" 50 w = (Ok df, w').
Proof.
  intros r0 w.
  apply (rate_limit_error_is_handled_in_the_row_loop
           always_rate_limited "in.csv" "out.csv" 50 w).
  - vm_compute. discriminate.
  - discriminate.
Defined.

Lemma get_medicine_usecase_retries_rate_limit_only_witness :
  let r0 := example_row "Crocin" None in
  let w := example_world [r0] in
  get_medicine_usecase (fun _ _ => Failure (py "connection reset")) r0 w
  = (Ok unknown, called (prompt_of r0) w).
Proof.
  intros r0 w.
  destruct (get_medicine_usecase_retries_rate_limit_only
              (fun _ _ => Failure (py "connection reset")) r0 w)
    as (_ & _ & H & _).
  apply (H (py "connection reset")).
  - reflexivity.
  - vm_compute. reflexivity.
Defined.

(** ** Resuming *)

Lemma first_pass_row_resolved :
  forall r, unresolved (Usecase r) = false -> first_pass_row r = r.
Proof.
  intros r H. unfold first_pass_row. rewrite H. reflexivity.
Qed.

Lemma resolved_row_kept :
  forall df0 df i r,
    rows_ok df0 df -> nth_error df0 i = Some r ->
    unresolved (Usecase r) = false -> nth_error df i = Some r.
Proof.
  intros df0 df i r [_ H] Hr U.
  destruct (H i r Hr) as (r' & Hr' & [->|[U' _]]); [exact Hr'|congruence].
Qed.

(** Reading a table that was read before and written again. *)
Lemma parse_cell_idem : forall c, parse_cell (parse_cell c) = parse_cell c.
Proof.
  intros [s|]; [|reflexivity]. simpl.
  destruct (is_na s) eqn:E; [reflexivity|]. simpl. rewrite E. reflexivity.
Qed.

Lemma parse_row_idem : forall r, parse_row (parse_row r) = parse_row r.
Proof.
  intros r. unfold parse_row. simpl. rewrite !parse_cell_idem. reflexivity.
Qed.

Lemma read_csv_parsed :
  forall path w df w',
    read_csv path w = (Ok df, w') -> map parse_row df = df.
Proof.
  intros path w df w'. unfold read_csv.
  destruct (files w path); [|discriminate].
  intros H. injection H as <- _. rewrite map_map.
  apply map_ext. intros r. apply parse_row_idem.
Qed.

Lemma table_values_are_text :
  Forall (fun kv => is_na (snd kv) = false) COMMON_MEDICINE_USECASES.
Proof. repeat constructor. Qed.

Lemma lookup_by_name_text :
  forall medicine_name d v,
    Forall (fun kv => is_na (snd kv) = false) d ->
    lookup_by_name medicine_name d = Some v -> is_na v = false.
Proof.
  intros medicine_name. induction d as [|[k v0] d IH]; intros v Hd H;
    [discriminate|].
  inversion Hd as [|? ? Hk Hd']; subst. cbn [lookup_by_name] in H.
  destruct (contains (lower k) (lower medicine_name)).
  - injection H as <-. exact Hk.
  - apply IH; assumption.
Qed.

Lemma first_pass_row_parsed :
  forall r, parse_row r = r -> parse_row (first_pass_row r) = first_pass_row r.
Proof.
  intros r Hr. unfold first_pass_row.
  destruct (unresolved (Usecase r)); [|exact Hr].
  destruct (get_usecase_from_lookup _ _) as [v|] eqn:L; [|exact Hr].
  destruct (negb (is_empty v)); [|exact Hr].
  rewrite get_usecase_from_lookup_name_only in L.
  apply (lookup_by_name_text _ _ _ table_values_are_text) in L.
  unfold parse_row in *. destruct r as [n c1 c2 t u]. simpl in *.
  injection Hr as H1 H2 _. rewrite H1, H2, L. reflexivity.
Qed.

Lemma first_pass_parsed :
  forall df, map parse_row df = df ->
             map parse_row (map first_pass_row df) = map first_pass_row df.
Proof.
  induction df as [|r df IH]; intros H; [reflexivity|].
  simpl in H. injection H as Hr Hdf. simpl.
  rewrite first_pass_row_parsed by exact Hr. rewrite IH by exact Hdf.
  reflexivity.
Qed.

(** A run of [process_dataset_with_fallback] that returns: the first
    pass, its save, and then a run of [process_dataset] on the saved
    table. *)
Lemma process_dataset_with_fallback_returns :
  forall model input_file output_file batch_size w df w',
    process_dataset_with_fallback model input_file output_file batch_size w
    = (Ok df, w') ->
    exists df_in evs,
      read_csv input_file w = (Ok df_in, w) /\
      let df1 := map first_pass_row df_in in
      added w w' (EvSave output_file df1 :: evs) /\
      Forall (event_ok output_file df1) evs /\
      rows_ok df1 df /\
      files w' output_file = Some (mkCsv true df).
Proof.
  intros model input_file output_file batch_size w df w' H.
  unfold process_dataset_with_fallback, bind in H.
  destruct (read_csv input_file w) as [[df_in|e] w1] eqn:R; [|discriminate].
  pose proof (read_csv_world _ _ _ _ R) as ->.
  pose proof (first_pass_parsed _ (read_csv_parsed _ _ _ _ R)) as Hp.
  unfold to_csv in H.
  set (df1 := map first_pass_row df_in) in *.
  set (ws := saved output_file df1 w) in *.
  destruct (process_dataset_returns _ _ _ _ _ _ _ H)
    as (df0 & Hread & Hb & (Hrows & _ & _ & evs & Ha & He) & _ & Hfile).
  assert (df0 = df1).
  { unfold read_csv, ws in Hread. simpl in Hread. unfold write_file in Hread.
    rewrite String.eqb_refl in Hread. simpl in Hread.
    rewrite Hp in Hread. congruence. }
  subst df0. simpl fst in *.
  exists df_in, evs. split; [reflexivity|]. cbv zeta. fold df1.
  split; [|split; [exact He|split; [exact Hrows|]]].
  - unfold added in *. rewrite Ha. unfold ws. simpl.
    rewrite <- app_assoc. reflexivity.
  - destruct Hfile as [Hf|(-> & -> & _)]; [exact Hf|].
    unfold ws. simpl. unfold write_file. rewrite String.eqb_refl. reflexivity.
Qed.


(** C8: the code on the failing input.  The table has one row without a
    usecase and the model answers "N/A".  The first run of the entry point
    resolves the row to "N/A", a usecase that is neither null, nor empty,
    nor unknown, and that the validator accepts, and saves it.  The second
    run reads "N/A" as a missing value: the row is queried again (the only
    query of that run) and its usecase is overwritten with the new
    answer. *)
Theorem resume_requeries_a_usecase_read_as_missing :
  let row := example_row "Crocin" None in
  let w := mkWorld (one_file INPUT_FILE (mkCsv true [row])) 0 [] in
  let run1 := main (always_answers "N/A") w in
  let run2 := main (always_answers "fever") (snd run1) in
  fst run1 = Ok [with_usecase (Some (py "N/A")) row] /\
  unresolved (Some (py "N/A")) = false /\
  validate_usecase (py "N/A") = true /\
  files (snd run1) OUTPUT_FILE
    = Some (mkCsv true [with_usecase (Some (py "N/A")) row]) /\
  read_csv OUTPUT_FILE (snd run1) = (Ok [row], snd run1) /\
  queried (skipn (length (trace (snd run1))) (trace (snd run2))) = [0] /\
  fst run2 = Ok [with_usecase (Some (py "fever")) row].
Proof. vm_compute. repeat split. Qed.

(** ** The empty string *)

Lemma apply_results_other :
  forall rd df idx,
    (forall k v, In (k, v) rd -> k <> idx) ->
    nth_error (apply_results rd df) idx = nth_error df idx.
Proof.
  unfold apply_results.
  induction rd as [|[k v] t IH]; intros df idx H; simpl; [reflexivity|].
  rewrite IH by (intros k' v' Hin; apply (H k' v'); right; exact Hin).
  apply nth_error_set_usecase_other.
  intros ->. apply (H k v); [left; reflexivity|reflexivity].
Qed.

Lemma apply_results_dict_set :
  forall rd df idx v row,
    NoDup (map fst rd) ->
    nth_error df idx = Some row ->
    nth_error (apply_results (dict_set idx v rd) df) idx
    = Some (with_usecase (Some v) row).
Proof.
  induction rd as [|[k v'] t IH]; intros df idx v row Hnd Hrow.
  - simpl. apply nth_error_set_usecase_same. exact Hrow.
  - simpl in Hnd. inversion Hnd as [|? ? Hnotin Hnd']; subst.
    cbn [dict_set]. destruct (Nat.eqb_spec k idx) as [->|Hne].
    + change (apply_results ((idx, v) :: t) df)
        with (apply_results t (set_usecase idx v df)).
      rewrite apply_results_other.
      * apply nth_error_set_usecase_same. exact Hrow.
      * intros k0 v0 Hin ->. apply Hnotin.
        change idx with (fst (idx, v0)). apply in_map. exact Hin.
    + change (apply_results ((k, v') :: dict_set idx v t) df)
        with (apply_results (dict_set idx v t) (set_usecase k v' df)).
      apply IH; [exact Hnd'|].
      rewrite nth_error_set_usecase_other by congruence. exact Hrow.
Qed.

Lemma save_progress_stored :
  forall output_file st w idx,
    exists st' w',
      save_progress output_file st w = (Ok st', w') /\
      stored_usecase idx st' = stored_usecase idx st.
Proof.
  intros output_file [df rd] w idx. unfold save_progress.
  destruct (20 <=? length rd); eexists _, _; split; reflexivity.
Qed.

(** C10: [validate_usecase] accepts the empty string, which is not the
    sentinel; and when the usecase a query returned fails the validation
    and cleaning it once more leaves the empty string, the row loop records
    the empty string for the row: once the pending results are written to
    the table, the row holds "". *)
Theorem empty_string_is_accepted_and_stored :
  validate_usecase [] = true /\
  [] <> unknown /\
  forall model output_file idx df results_dict row u w w1,
    nth_error df idx = Some row ->
    NoDup (map fst results_dict) ->
    get_medicine_usecase model row (logged (EvQuery idx) w) = (Ok u, w1) ->
    validate_usecase u = false ->
    clean_usecase u = [] ->
    checked u = [] /\
    exists st' w',
      process_row model output_file idx (df, results_dict) w = (Ok st', w') /\
      stored_usecase idx st' = Some (Some []).
Proof.
  split; [reflexivity|split; [discriminate|]].
  intros model output_file idx df rd row u w w1 Hrow Hnd G V C.
  assert (Hc : checked u = []).
  { unfold checked. rewrite V. simpl. rewrite C. reflexivity. }
  split; [exact Hc|].
  rewrite (process_row_eq_ok model output_file _ _ _ _ _ _ _ Hrow G), Hc.
  destruct (save_progress_stored output_file (df, dict_set idx [] rd)
              (logged EvRowDelay w1) idx) as (st' & w' & E & Hs).
  exists st', w'. split; [exact E|]. rewrite Hs.
  unfold stored_usecase. cbn [fst snd].
  rewrite (apply_results_dict_set rd df idx [] row Hnd Hrow). reflexivity.
Qed.

Lemma empty_string_is_accepted_and_stored_witness :
  let row := example_row "Crocin" None in
  let model := always_answers "ththis a,is is b" in
  let w := example_world [row] in
  checked (py "this is b") = [] /\
  exists st' w',
    process_row model "out.csv" 0 ([row], []) w = (Ok st', w') /\
    stored_usecase 0 st' = Some (Some []).
Proof.
  intros row model w.
  apply (proj2 (proj2 empty_string_is_accepted_and_stored)
           model "out.csv"%string 0 [row] [] row (py "this is b") w
           (called (prompt_of row) (logged (EvQuery 0) w))).
  - reflexivity.
  - constructor.
  - vm_compute. reflexivity.
  - vm_compute. reflexivity.
  - vm_compute. reflexivity.
Defined.

(** ** The matcher finds a match exactly when one exists *)

Lemma last_of_app :
  forall u v prev, last_of prev (u ++ v) = last_of (last_of prev u) v.
Proof.
  induction u as [|x u IH]; intros v prev; simpl; [reflexivity|apply IH].
Qed.

Lemma star_m_spec :
  forall ic cs s prev (k : cont),
    star_m ic cs prev s k <> None <->
    exists u rest, s = u ++ rest /\ forallb (in_set ic cs) u = true /\
                   k (last_of prev u) rest <> None.
Proof.
  intros ic cs. induction s as [|x t IH]; intros prev k; cbn [star_m].
  - split.
    + intros H. exists [], []. auto.
    + intros (u & rest & E & _ & H).
      symmetry in E. apply app_eq_nil in E. destruct E as [-> ->]. exact H.
  - destruct (in_set ic cs x) eqn:X.
    + split.
      * intros H.
        destruct (star_m ic cs (Some x) t k) eqn:S1.
        -- assert (S1' : star_m ic cs (Some x) t k <> None) by congruence.
           apply IH in S1'. destruct S1' as (u & rest & -> & Hu & Hk).
           exists (x :: u), rest. simpl. rewrite X, Hu. auto.
        -- exists [], (x :: t). auto.
      * intros (u & rest & E & Hu & Hk).
        destruct u as [|y u].
        -- simpl in E. subst rest. simpl in Hk.
           destruct (star_m ic cs (Some x) t k); [discriminate|exact Hk].
        -- simpl in E. injection E as <- ->. simpl in Hu.
           apply andb_true_iff in Hu. destruct Hu as [_ Hu].
           assert (S1 : star_m ic cs (Some x) (u ++ rest) k <> None).
           { apply IH. exists u, rest. auto. }
           destruct (star_m ic cs (Some x) (u ++ rest) k);
             [discriminate|contradiction].
    + split.
      * intros H. exists [], (x :: t). auto.
      * intros (u & rest & E & Hu & Hk).
        destruct u as [|y u].
        -- simpl in E. subst rest. exact Hk.
        -- simpl in E. injection E as <- ->. simpl in Hu.
           rewrite X in Hu. discriminate.
Qed.

Lemma rmatch_spec :
  forall ic r prev s (k : cont),
    rmatch ic r prev s k <> None <->
    exists u rest, s = u ++ rest /\ den ic r prev u rest /\
                   k (last_of prev u) rest <> None.
Proof.
  intros ic. induction r as [|cs|cs|r1 IH1 r2 IH2|r1 IH1 r2 IH2|r1 IH1|];
    intros prev s k; cbn [rmatch den].
  - split.
    + intros H. exists [], s. auto.
    + intros (u & rest & -> & -> & H). exact H.
  - split.
    + destruct s as [|x t]; [congruence|].
      destruct (in_set ic cs x) eqn:X; [|congruence].
      intros H. exists [x], t. split; [reflexivity|]. split; [eauto|exact H].
    + intros (u & rest & -> & (x & -> & X) & H). simpl. rewrite X. exact H.
  - apply star_m_spec.
  - rewrite IH1. split.
    + intros (u1 & rest1 & -> & D1 & H). apply IH2 in H.
      destruct H as (u2 & rest & -> & D2 & H).
      exists (u1 ++ u2), rest. rewrite <- app_assoc.
      split; [reflexivity|]. split; [|rewrite last_of_app; exact H].
      exists u1, u2. auto.
    + intros (u & rest & -> & (u1 & u2 & -> & D1 & D2) & H).
      exists u1, (u2 ++ rest). rewrite <- app_assoc.
      split; [reflexivity|]. split; [exact D1|].
      apply IH2. exists u2, rest. rewrite last_of_app in H. auto.
  - split.
    + intros H. destruct (rmatch ic r1 prev s k) eqn:M1.
      * assert (M : rmatch ic r1 prev s k <> None) by congruence.
        apply IH1 in M. destruct M as (u & rest & E & D & Hk).
        exists u, rest. auto.
      * apply IH2 in H. destruct H as (u & rest & E & D & Hk).
        exists u, rest. auto.
    + intros (u & rest & E & [D|D] & Hk).
      * assert (M : rmatch ic r1 prev s k <> None)
          by (apply IH1; exists u, rest; auto).
        destruct (rmatch ic r1 prev s k); [discriminate|contradiction].
      * assert (M : rmatch ic r2 prev s k <> None)
          by (apply IH2; exists u, rest; auto).
        destruct (rmatch ic r1 prev s k); [discriminate|exact M].
  - split.
    + intros H. destruct (rmatch ic r1 prev s k) eqn:M1.
      * assert (M : rmatch ic r1 prev s k <> None) by congruence.
        apply IH1 in M. destruct M as (u & rest & E & D & Hk).
        exists u, rest. auto.
      * exists [], s. auto.
    + intros (u & rest & E & [D| ->] & Hk).
      * assert (M : rmatch ic r1 prev s k <> None)
          by (apply IH1; exists u, rest; auto).
        destruct (rmatch ic r1 prev s k); [discriminate|contradiction].
      * simpl in E. subst rest.
        destruct (rmatch ic r1 prev s k); [discriminate|exact Hk].
  - split.
    + destruct (at_boundary prev s) eqn:B; [|congruence].
      intros H. exists [], s. auto.
    + intros (u & rest & -> & (-> & B) & H). simpl. rewrite B. exact H.
Qed.

Lemma match_at_spec :
  forall ic r prev s,
    match_at ic r prev s <> None <->
    exists u rest, s = u ++ rest /\ den ic r prev u rest.
Proof.
  intros ic r prev s. unfold match_at. rewrite rmatch_spec. split.
  - intros (u & rest & E & D & _). eauto.
  - intros (u & rest & E & D). exists u, rest.
    split; [exact E|split; [exact D|discriminate]].
Qed.

Lemma search_from_spec :
  forall ic r s prev,
    search_from ic r prev s = true <->
    exists pre u rest,
      s = pre ++ u ++ rest /\ den ic r (last_of prev pre) u rest.
Proof.
  intros ic r. induction s as [|x t IH]; intros prev; cbn [search_from].
  - destruct (match_at ic r prev []) eqn:M.
    + split; [intros _|reflexivity].
      assert (M' : match_at ic r prev [] <> None) by congruence.
      apply match_at_spec in M'. destruct M' as (u & rest & E & D).
      exists [], u, rest. auto.
    + split; [discriminate|].
      intros (pre & u & rest & E & D).
      symmetry in E. apply app_eq_nil in E. destruct E as [-> E].
      assert (M' : match_at ic r prev [] <> None).
      { apply match_at_spec. exists u, rest. auto. }
      contradiction.
  - destruct (match_at ic r prev (x :: t)) eqn:M.
    + split; [intros _|reflexivity].
      assert (M' : match_at ic r prev (x :: t) <> None) by congruence.
      apply match_at_spec in M'. destruct M' as (u & rest & E & D).
      exists [], u, rest. auto.
    + rewrite IH. split.
      * intros (pre & u & rest & -> & D). exists (x :: pre), u, rest. auto.
      * intros (pre & u & rest & E & D). destruct pre as [|y pre].
        -- assert (M' : match_at ic r prev (x :: t) <> None).
           { apply match_at_spec. exists u, rest. auto. }
           contradiction.
        -- simpl in E. injection E as <- ->. exists pre, u, rest. auto.
Qed.

Lemma re_search_spec :
  forall ic r s, re_search ic r s = true <-> matches_in ic r s.
Proof. intros. apply search_from_spec. Qed.

(** Where the pattern matches nowhere, the substitution changes
    nothing. *)
Lemma sub_from_no_match :
  forall ic r s prev,
    search_from ic r prev s = false -> sub_from ic r 0 prev s = s.
Proof.
  intros ic r. induction s as [|x t IH]; intros prev H; [reflexivity|].
  cbn [search_from] in H. cbn [sub_from].
  destruct (match_at ic r prev (x :: t)); [discriminate|].
  rewrite IH by exact H. reflexivity.
Qed.

Lemma re_sub_empty_no_match :
  forall ic r s, re_search ic r s = false -> re_sub_empty ic r s = s.
Proof. intros. apply sub_from_no_match. assumption. Qed.

(** ** The validator and verbs *)

Lemma is_word_lower_char : forall c, is_word (lower_char c) = is_word c.
Proof. intros [[] [] [] [] [] [] [] []]; reflexivity. Qed.

Lemma lower_char_idem : forall c, lower_char (lower_char c) = lower_char c.
Proof. intros [[] [] [] [] [] [] [] []]; reflexivity. Qed.

Lemma forallb_is_word_lower :
  forall w, forallb is_word (lower w) = forallb is_word w.
Proof.
  induction w as [|c w IH]; simpl; [reflexivity|].
  rewrite is_word_lower_char, IH. reflexivity.
Qed.

(** A literal pattern matches, case ignored, every text whose lower-case
    form it spells. *)
Lemma den_lit_lower :
  forall w prev rest, den true (lit_chars (lower w)) prev w rest.
Proof.
  induction w as [|c w IH]; intros prev rest; [reflexivity|].
  destruct w as [|c' w].
  - simpl. exists c. split; [reflexivity|].
    rewrite lower_char_idem. apply Ascii.eqb_refl.
  - change (lit_chars (lower (c :: c' :: w)))
      with (Seq (Chr (COne (lower_char c))) (lit_chars (lower (c' :: w)))).
    cbn [den]. exists [c], (c' :: w). split; [reflexivity|]. split.
    + exists c. split; [reflexivity|]. simpl.
      rewrite lower_char_idem. apply Ascii.eqb_refl.
    + apply IH.
Qed.

Lemma den_alts_in :
  forall ic rs r r' prev u rest,
    In r' (r :: rs) -> den ic r' prev u rest -> den ic (alts r rs) prev u rest.
Proof.
  intros ic. induction rs as [|r1 rs IH]; intros r r' prev u rest Hin D.
  - destruct Hin as [->|[]]. exact D.
  - cbn [alts den]. destruct Hin as [->|Hin]; [left; exact D|].
    right. apply IH with (r' := r'); assumption.
Qed.

Lemma den_word_alts :
  forall ws v prev u rest,
    In v ws -> den true (lit v) prev u rest ->
    den true (word_alts ws) prev u rest.
Proof.
  intros ws v prev u rest Hin D. unfold word_alts.
  assert (Hm : In (lit v) (map lit ws)) by (apply in_map; exact Hin).
  destruct (map lit ws) as [|r rs]; [destruct Hm|].
  apply den_alts_in with (r' := lit v); assumption.
Qed.

Lemma word_after_app :
  forall w post, w <> [] -> forallb is_word w = true ->
                 word_after (w ++ post) = true.
Proof.
  intros [|c w] post Hne H; [contradiction|].
  simpl in *. apply andb_true_iff in H. tauto.
Qed.

Lemma word_before_last :
  forall w prev, w <> [] -> forallb is_word w = true ->
                 word_before (last_of prev w) = true.
Proof.
  induction w as [|c w IH]; intros prev Hne H; [contradiction|].
  simpl in H. apply andb_true_iff in H. destruct H as [Hc Hw].
  destruct w as [|c' w]; [exact Hc|].
  change (last_of prev (c :: c' :: w)) with (last_of (Some c) (c' :: w)).
  apply IH; [discriminate|exact Hw].
Qed.

Lemma verbs_are_words :
  Forall (fun v => py v <> [] /\ forallb is_word (py v) = true)
         (modal_verbs ++ action_verbs).
Proof. repeat constructor; discriminate. Qed.

Lemma re_words_found :
  forall ws v s,
    In v ws -> py v <> [] -> forallb is_word (py v) = true ->
    whole_word_in (py v) s ->
    re_search true (re_words ws) s = true.
Proof.
  intros ws v s Hin Hne Hw (pre & w' & post & -> & Hl & Hb & Ha).
  apply re_search_spec. exists pre, w', post. split; [reflexivity|].
  assert (Hne' : w' <> []) by (intros ->; apply Hne; symmetry; exact Hl).
  assert (Hw' : forallb is_word w' = true).
  { rewrite <- forallb_is_word_lower, Hl. exact Hw. }
  unfold re_words. cbn [den].
  exists [], w'. split; [reflexivity|]. split.
  - split; [reflexivity|]. unfold at_boundary. rewrite Hb.
    rewrite word_after_app by assumption. reflexivity.
  - exists w', []. split; [symmetry; apply app_nil_r|]. split.
    + apply den_word_alts with (v := v); [exact Hin|].
      unfold lit. rewrite <- Hl. apply den_lit_lower.
    + split; [reflexivity|]. unfold at_boundary. simpl last_of.
      rewrite word_before_last by assumption. rewrite Ha. reflexivity.
Qed.

(** C9: a string that contains one of the modal or auxiliary verbs, or
    one of the action verbs, as a whole word in any letter case is
    rejected by [validate_usecase]; and "fever, headache, joint pain" is
    accepted. *)
Theorem validate_usecase_rejects_verbs :
  (forall s v,
     In v (modal_verbs ++ action_verbs) ->
     whole_word_in (py v) s ->
     validate_usecase s = false) /\
  validate_usecase (py "fever, headache, joint pain") = true.
Proof.
  split; [|vm_compute; reflexivity].
  intros s v Hin Hs. unfold validate_usecase.
  destruct (150 <? length s); [reflexivity|].
  pose proof verbs_are_words as Hall. rewrite Forall_forall in Hall.
  destruct (Hall v Hin) as [Hne Hw].
  unfold sentence_patterns. cbn [existsb].
  apply in_app_or in Hin. destruct Hin as [Hin|Hin].
  - rewrite (re_words_found modal_verbs v s Hin Hne Hw Hs). reflexivity.
  - rewrite (re_words_found action_verbs v s Hin Hne Hw Hs).
    rewrite orb_true_r. reflexivity.
Qed.

Lemma validate_usecase_rejects_verbs_witness :
  validate_usecase (py "It MAY help, fever") = false.
Proof.
  apply (proj1 validate_usecase_rejects_verbs
           (py "It MAY help, fever") "may"%string).
  - vm_compute. auto 20.
  - exists (py "It "), (py "MAY"), (py " help, fever").
    vm_compute. repeat split.
Defined.

(** ** Stripping, splitting and joining *)

Section Strip.

Variable p : ascii -> bool.

Lemma lstrip_by_split :
  forall s, exists ws, s = ws ++ lstrip_by p s /\ forallb p ws = true.
Proof.
  induction s as [|c s (ws & E & H)]; [exists []; auto|].
  simpl. destruct (p c) eqn:C.
  - exists (c :: ws). simpl. rewrite C, H. split; [f_equal; exact E|reflexivity].
  - exists []. auto.
Qed.

Lemma lstrip_by_head :
  forall s c t, lstrip_by p s = c :: t -> p c = false.
Proof.
  induction s as [|x s IH]; intros c t; simpl; [discriminate|].
  destruct (p x) eqn:X; [apply IH|].
  intros H. injection H as <- _. exact X.
Qed.

Lemma lstrip_by_fixed :
  forall s, match s with [] => True | c :: _ => p c = false end ->
            lstrip_by p s = s.
Proof.
  intros [|c s] H; [reflexivity|]. simpl. rewrite H. reflexivity.
Qed.

Lemma lstrip_by_idem : forall s, lstrip_by p (lstrip_by p s) = lstrip_by p s.
Proof.
  intros s. apply lstrip_by_fixed.
  destruct (lstrip_by p s) as [|c t] eqn:E; [exact I|].
  eapply lstrip_by_head; eauto.
Qed.

Lemma lstrip_by_cons :
  forall c s, p c = true -> lstrip_by p (c :: s) = lstrip_by p s.
Proof. intros c s H. simpl. rewrite H. reflexivity. Qed.

Lemma strip_by_split :
  forall s, exists a b, s = a ++ strip_by p s ++ b.
Proof.
  intros s. unfold strip_by, rstrip_by.
  destruct (lstrip_by_split s) as (a & Ea & _).
  destruct (lstrip_by_split (rev (lstrip_by p s))) as (b & Eb & _).
  exists a, (rev b).
  rewrite <- rev_app_distr, <- Eb, rev_involutive. exact Ea.
Qed.

Lemma strip_by_cons :
  forall c s, p c = true -> strip_by p (c :: s) = strip_by p s.
Proof.
  intros c s H. unfold strip_by. rewrite lstrip_by_cons by exact H.
  reflexivity.
Qed.

Lemma strip_by_idem : forall s, strip_by p (strip_by p s) = strip_by p s.
Proof.
  intros s. unfold strip_by, rstrip_by.
  set (a := lstrip_by p s).
  set (b := lstrip_by p (rev a)).
  assert (Hb : lstrip_by p b = b) by apply lstrip_by_idem.
  assert (Hr : lstrip_by p (rev b) = rev b).
  { apply lstrip_by_fixed.
    destruct (rev b) as [|c t] eqn:E; [exact I|].
    destruct (lstrip_by_split (rev a)) as (ws & Ews & _). fold b in Ews.
    apply (f_equal (@rev ascii)) in Ews.
    rewrite rev_involutive, rev_app_distr, E in Ews. simpl in Ews.
    apply (lstrip_by_head s c (t ++ rev ws)). exact Ews. }
  rewrite Hr, rev_involutive, Hb. reflexivity.
Qed.

End Strip.

Lemma strip_split : forall s, exists a b, s = a ++ strip s ++ b.
Proof. intros. apply strip_by_split. Qed.

Lemma split_on_not_nil : forall c s, split_on c s <> [].
Proof.
  intros c. induction s as [|x s IH]; simpl; [discriminate|].
  destruct (Ascii.eqb x c); [discriminate|].
  destruct (split_on c s); [contradiction|discriminate].
Qed.

Lemma split_on_no_sep :
  forall c s, ~ In c s -> split_on c s = [s].
Proof.
  intros c. induction s as [|x s IH]; intros H; [reflexivity|].
  simpl. destruct (Ascii.eqb_spec x c) as [->|Hne].
  - exfalso. apply H. left. reflexivity.
  - rewrite IH by (intros Hin; apply H; right; exact Hin). reflexivity.
Qed.

Lemma split_on_app :
  forall c x rest, ~ In c x ->
    split_on c (x ++ c :: rest) = x :: split_on c rest.
Proof.
  intros c. induction x as [|a x IH]; intros rest H.
  - simpl. rewrite Ascii.eqb_refl. reflexivity.
  - simpl. destruct (Ascii.eqb_spec a c) as [->|Hne].
    + exfalso. apply H. left. reflexivity.
    + rewrite IH by (intros Hin; apply H; right; exact Hin). reflexivity.
Qed.

Lemma split_on_cons_other :
  forall c a s h r, a <> c -> split_on c s = h :: r ->
    split_on c (a :: s) = (a :: h) :: r.
Proof.
  intros c a s h r Hne E. simpl.
  destruct (Ascii.eqb_spec a c); [contradiction|]. rewrite E. reflexivity.
Qed.

Lemma join_split_on :
  forall c s, join [c] (split_on c s) = s.
Proof.
  intros c. induction s as [|x s IH]; [reflexivity|].
  simpl. destruct (Ascii.eqb_spec x c) as [->|Hne].
  - destruct (split_on c s) as [|h r] eqn:E;
      [exfalso; eapply split_on_not_nil; eauto|].
    change (join [c] ([] :: h :: r)) with (c :: join [c] (h :: r)).
    rewrite IH. reflexivity.
  - destruct (split_on c s) as [|h r] eqn:E;
      [exfalso; eapply split_on_not_nil; eauto|].
    destruct r as [|h' r].
    + simpl in *. rewrite IH. reflexivity.
    + change (join [c] ((x :: h) :: h' :: r))
        with (x :: (h ++ [c] ++ join [c] (h' :: r))).
      change (join [c] (h :: h' :: r))
        with (h ++ [c] ++ join [c] (h' :: r)) in IH.
      rewrite IH. reflexivity.
Qed.

Lemma split_on_pieces_no_sep :
  forall c s seg, In seg (split_on c s) -> ~ In c seg.
Proof.
  intros c. induction s as [|x s IH]; intros seg Hin.
  - destruct Hin as [<-|[]]. intros [].
  - simpl in Hin. destruct (Ascii.eqb_spec x c) as [->|Hne].
    + destruct Hin as [<-|Hin]; [intros []|apply IH; exact Hin].
    + destruct (split_on c s) as [|h r] eqn:E;
        [exfalso; eapply split_on_not_nil; eauto|].
      destruct Hin as [<-|Hin].
      * intros [Hx|Hh]; [congruence|].
        apply (IH h (or_introl eq_refl)). exact Hh.
      * apply IH. right. exact Hin.
Qed.

Lemma infix_refl : forall x, infix x x.
Proof. intros x. exists [], []. rewrite app_nil_r. reflexivity. Qed.

Lemma infix_trans : forall u v x, infix u v -> infix v x -> infix u x.
Proof.
  intros u v x (a & b & ->) (a' & b' & ->).
  exists (a' ++ a), (b ++ b'). rewrite <- !app_assoc. reflexivity.
Qed.

Lemma infix_app_l : forall u x y, infix u x -> infix u (x ++ y).
Proof.
  intros u x y (a & b & ->). exists a, (b ++ y).
  rewrite <- !app_assoc. reflexivity.
Qed.

Lemma infix_app_r : forall u x y, infix u y -> infix u (x ++ y).
Proof.
  intros u x y (a & b & ->). exists (x ++ a), b.
  rewrite <- !app_assoc. reflexivity.
Qed.

Lemma join_cons :
  forall sep x y t, join sep (x :: y :: t) = x ++ sep ++ join sep (y :: t).
Proof. reflexivity. Qed.

Lemma in_join_infix :
  forall sep items seg, In seg items -> infix seg (join sep items).
Proof.
  intros sep. induction items as [|x t IH]; intros seg Hin; [destruct Hin|].
  destruct t as [|y t].
  - destruct Hin as [<-|[]]. apply infix_refl.
  - rewrite join_cons. destruct Hin as [<-|Hin].
    + apply infix_app_l, infix_refl.
    + apply infix_app_r, infix_app_r, IH. exact Hin.
Qed.

Lemma split_on_pieces_infix :
  forall c s seg, In seg (split_on c s) -> infix seg s.
Proof.
  intros c s seg Hin.
  pose proof (in_join_infix [c] _ _ Hin) as H.
  rewrite join_split_on in H. exact H.
Qed.

(** ** [tidy] is idempotent *)

(** The items [tidy] keeps: pieces of the text without a comma, stripped,
    and of a length between 1 and 49. *)
Lemma tidy_items :
  forall s item,
    In item (filter keep_item (map strip (split_on "," s))) ->
    ~ In ","%char item /\ strip item = item /\
    keep_item item = true /\ infix item s.
Proof.
  intros s item Hin. apply filter_In in Hin. destruct Hin as [Hin Hk].
  apply in_map_iff in Hin. destruct Hin as (seg & <- & Hseg).
  destruct (strip_split seg) as (a & b & E).
  split; [|split; [|split]].
  - intros Hc. apply (split_on_pieces_no_sep _ _ _ Hseg).
    rewrite E. apply in_or_app. right. apply in_or_app. left. exact Hc.
  - apply strip_by_idem.
  - exact Hk.
  - apply infix_trans with (v := seg).
    + exists a, b. exact E.
    + eapply split_on_pieces_infix; eauto.
Qed.

Lemma split_on_join_items :
  forall x items,
    (forall i, In i (x :: items) -> ~ In ","%char i) ->
    split_on "," (join (py ", ") (x :: items))
    = x :: map (cons " "%char) items.
Proof.
  intros x items. revert x.
  induction items as [|y t IH]; intros x H.
  - simpl. apply split_on_no_sep. apply H. left. reflexivity.
  - rewrite join_cons.
    change (py ", " ++ join (py ", ") (y :: t))
      with (","%char :: " "%char :: join (py ", ") (y :: t)).
    rewrite split_on_app by (apply H; left; reflexivity).
    f_equal.
    rewrite (split_on_cons_other "," " " _ y (map (cons " "%char) t));
      [reflexivity|discriminate|].
    apply IH. intros i Hi. apply H. right. exact Hi.
Qed.

Lemma tidy_idem : forall s, tidy (tidy s) = tidy s.
Proof.
  intros s.
  pose (items := filter keep_item (map strip (split_on "," s))).
  assert (E : tidy s = join (py ", ") items) by reflexivity.
  rewrite E.
  assert (H : forall i, In i items ->
                ~ In ","%char i /\ strip i = i /\ keep_item i = true).
  { intros i Hi. destruct (tidy_items s i Hi) as (H1 & H2 & H3 & _). auto. }
  clearbody items. clear E.
  destruct items as [|x t]; [reflexivity|].
  unfold tidy. rewrite split_on_join_items by (intros i Hi; apply H, Hi).
  match goal with
  | |- context [filter keep_item ?m] => assert (Hm : m = x :: t)
  end.
  { cbn [map]. f_equal; [apply H; left; reflexivity|].
    rewrite map_map.
    assert (Ht : forall i, In i t -> strip i = i)
      by (intros i Hi; apply H; right; exact Hi).
    clear - Ht. induction t as [|y t IH]; [reflexivity|].
    cbn [map]. f_equal.
    - unfold strip. rewrite strip_by_cons by reflexivity.
      apply Ht. left. reflexivity.
    - apply IH. intros i Hi. apply Ht. right. exact Hi. }
  rewrite Hm.
  assert (Hf : filter keep_item (x :: t) = x :: t).
  { assert (Hk : forall i, In i (x :: t) -> keep_item i = true)
      by (intros i Hi; apply H, Hi).
    clear - Hk. induction (x :: t) as [|y l IH]; [reflexivity|].
    simpl. rewrite (Hk y (or_introl eq_refl)). f_equal.
    apply IH. intros i Hi. apply Hk. right. exact Hi. }
  rewrite Hf. reflexivity.
Qed.

(** ** Static facts about matches *)

Lemma den_context_free :
  forall ic r prev u rest prev' rest',
    context_free r = true ->
    den ic r prev u rest -> den ic r prev' u rest'.
Proof.
  intros ic. induction r as [|cs|cs|r1 IH1 r2 IH2|r1 IH1 r2 IH2|r1 IH1|];
    intros prev u rest prev' rest' C D; cbn [den context_free] in *;
    try exact D; try discriminate.
  - apply andb_true_iff in C. destruct C as [C1 C2].
    destruct D as (u1 & u2 & E & D1 & D2). exists u1, u2.
    split; [exact E|]. split; [eapply IH1|eapply IH2]; eauto.
  - apply andb_true_iff in C. destruct C as [C1 C2].
    destruct D as [D|D]; [left; eapply IH1|right; eapply IH2]; eauto.
  - destruct D as [D|D]; [left; eapply IH1; eauto|right; exact D].
Qed.

Lemma den_nonempty :
  forall ic r prev u rest,
    nullable r = false -> den ic r prev u rest -> u <> [].
Proof.
  intros ic. induction r as [|cs|cs|r1 IH1 r2 IH2|r1 IH1 r2 IH2|r1 IH1|];
    intros prev u rest N D; cbn [den nullable] in *; try discriminate.
  - destruct D as (x & -> & _). discriminate.
  - destruct D as (u1 & u2 & -> & D1 & D2).
    apply andb_false_iff in N. intros E. apply app_eq_nil in E.
    destruct E as [-> ->]. destruct N as [N|N].
    + eapply IH1; eauto.
    + eapply IH2; eauto.
  - apply orb_false_iff in N. destruct N as [N1 N2].
    destruct D as [D|D]; [eapply IH1|eapply IH2]; eauto.
Qed.

Lemma den_contains :
  forall ic r prev u rest x,
    den ic r prev u rest -> In x u -> may_contain ic r x = true.
Proof.
  intros ic. induction r as [|cs|cs|r1 IH1 r2 IH2|r1 IH1 r2 IH2|r1 IH1|];
    intros prev u rest x D Hin; cbn [den may_contain] in *.
  - subst u. destruct Hin.
  - destruct D as (y & -> & Y). destruct Hin as [<-|[]]. exact Y.
  - rewrite forallb_forall in D. apply D. exact Hin.
  - destruct D as (u1 & u2 & -> & D1 & D2). apply orb_true_iff.
    apply in_app_or in Hin. destruct Hin as [Hin|Hin];
      [left; eapply IH1|right; eapply IH2]; eauto.
  - apply orb_true_iff. destruct D as [D|D];
      [left; eapply IH1|right; eapply IH2]; eauto.
  - destruct D as [D| ->]; [eapply IH1; eauto|destruct Hin].
  - destruct D as [-> _]. destruct Hin.
Qed.

Lemma den_starts :
  forall ic r prev x u rest,
    den ic r prev (x :: u) rest -> may_start ic r x = true.
Proof.
  intros ic. induction r as [|cs|cs|r1 IH1 r2 IH2|r1 IH1 r2 IH2|r1 IH1|];
    intros prev x u rest D; cbn [den may_start] in *.
  - discriminate.
  - destruct D as (y & E & Y). injection E as -> _. exact Y.
  - simpl in D. apply andb_true_iff in D. tauto.
  - destruct D as (u1 & u2 & E & D1 & D2). apply orb_true_iff.
    destruct u1 as [|y u1].
    + right. simpl in E. subst u2. apply andb_true_iff. split.
      * destruct (nullable r1) eqn:N; [reflexivity|].
        exfalso. eapply den_nonempty; eauto.
      * eapply IH2; eauto.
    + left. simpl in E. injection E as <- _. eapply IH1; eauto.
  - apply orb_true_iff. destruct D as [D|D];
      [left; eapply IH1|right; eapply IH2]; eauto.
  - destruct D as [D|D]; [eapply IH1; eauto|discriminate].
  - destruct D as [D _]. discriminate.
Qed.

Lemma matches_in_infix :
  forall ic r s,
    context_free r = true ->
    (matches_in ic r s <-> exists u, infix u s /\ den ic r None u []).
Proof.
  intros ic r s C. split.
  - intros (pre & u & rest & -> & D). exists u. split.
    + exists pre, rest. reflexivity.
    + eapply den_context_free; eauto.
  - intros (u & (a & b & ->) & D). exists a, u, b.
    split; [reflexivity|]. eapply den_context_free; eauto.
Qed.

(** ** Pieces of a tidied text are pieces of the text *)

Lemma infix_sep :
  forall (c : ascii) u a b,
    infix u (a ++ c :: b) -> ~ In c u -> infix u a \/ infix u b.
Proof.
  intros c u a b (p & q & E) Hc.
  apply app_eq_app in E. destruct E as (l & [[-> E]|[-> E]]).
  - apply app_eq_app in E. destruct E as (l2 & [[-> E]|[-> E]]).
    + destruct l2 as [|y l2].
      * left. exists p, []. rewrite !app_nil_r. reflexivity.
      * simpl in E. injection E as <- _. exfalso. apply Hc.
        apply in_or_app. right. left. reflexivity.
    + left. exists p, l2. rewrite app_assoc. reflexivity.
  - destruct l as [|y l].
    + simpl in E. destruct u as [|y u].
      * left. exists a, []. rewrite !app_nil_r. reflexivity.
      * simpl in E. injection E as <- _. exfalso. apply Hc. left. reflexivity.
    + simpl in E. injection E as _ ->. right. exists l, q. reflexivity.
Qed.

Lemma infix_cons_skip :
  forall (c : ascii) u b,
    infix u (c :: b) -> (forall t, u <> c :: t) -> infix u b.
Proof.
  intros c u b (p & q & E) H. destruct p as [|y p].
  - destruct u as [|y u].
    + exists [], b. reflexivity.
    + simpl in E. injection E as -> _. exfalso. eapply H. reflexivity.
  - simpl in E. injection E as _ ->. exists p, q. reflexivity.
Qed.

Lemma infix_join_items :
  forall u items,
    u <> [] -> ~ In ","%char u -> (forall t, u <> " "%char :: t) ->
    infix u (join (py ", ") items) ->
    exists i, In i items /\ infix u i.
Proof.
  intros u items Hne Hc Hs. induction items as [|x t IH]; intros H.
  - destruct H as (a & b & E). simpl in E.
    symmetry in E. apply app_eq_nil in E. destruct E as [_ E].
    apply app_eq_nil in E. destruct E as [E _]. contradiction.
  - destruct t as [|y t].
    + exists x. split; [left; reflexivity|exact H].
    + rewrite join_cons in H.
      change (py ", " ++ join (py ", ") (y :: t))
        with (","%char :: " "%char :: join (py ", ") (y :: t)) in H.
      apply infix_sep in H; [|exact Hc]. destruct H as [H|H].
      * exists x. split; [left; reflexivity|exact H].
      * apply infix_cons_skip in H; [|exact Hs].
        destruct (IH H) as (i & Hi & Hu). exists i. split; [right|]; assumption.
Qed.

Lemma infix_tidy :
  forall u s,
    u <> [] -> ~ In ","%char u -> (forall t, u <> " "%char :: t) ->
    infix u (tidy s) -> infix u s.
Proof.
  intros u s Hne Hc Hs H. unfold tidy in H.
  apply infix_join_items in H; try assumption.
  destruct H as (i & Hi & Hu).
  apply infix_trans with (v := i); [exact Hu|].
  apply (tidy_items s i Hi).
Qed.

(** A pattern that looks at no context and whose matches are non-empty,
    hold no comma and do not start with a space: where it matches in the
    tidied text, it matches in the text. *)
Lemma matches_in_tidy :
  forall ic r s,
    context_free r = true -> nullable r = false ->
    may_contain ic r "," = false -> may_start ic r " " = false ->
    matches_in ic r (tidy s) -> matches_in ic r s.
Proof.
  intros ic r s C N Hc Hs H.
  apply (matches_in_infix ic r _ C) in H. destruct H as (u & Hu & D).
  apply (matches_in_infix ic r _ C). exists u. split; [|exact D].
  apply infix_tidy; try assumption.
  - eapply den_nonempty; eauto.
  - intros Hin. rewrite (den_contains _ _ _ _ _ _ D Hin) in Hc. discriminate.
  - intros t ->. rewrite (den_starts _ _ _ _ _ _ D) in Hs. discriminate.
Qed.

(** ** The it/this pattern and its head *)

Lemma matches_in_seq_tail :
  forall ic A B C D E s,
    context_free A = true -> context_free B = true ->
    context_free C = true -> context_free D = true ->
    (forall prev rest, den ic E prev [] rest) ->
    (matches_in ic (Seq A (Seq B (Seq C (Seq D E)))) s <->
     matches_in ic (Seq A (Seq B (Seq C D))) s).
Proof.
  intros ic A B C D E s CA CB CC CD HE. split.
  - intros (pre & u & rest & -> & Dn). cbn [den] in Dn.
    destruct Dn as (ua & u1 & -> & Da & ub & u2 & -> & Db & uc & u3 & ->
                    & Dc & ud & u4 & -> & Dd & _).
    exists pre, (ua ++ ub ++ uc ++ ud), (u4 ++ rest). split.
    + rewrite <- !app_assoc. reflexivity.
    + cbn [den]. exists ua, (ub ++ uc ++ ud). split; [reflexivity|].
      split; [eapply den_context_free; eauto|].
      exists ub, (uc ++ ud). split; [reflexivity|].
      split; [eapply den_context_free; eauto|].
      exists uc, ud. split; [reflexivity|].
      split; eapply den_context_free; eauto.
  - intros (pre & u & rest & -> & Dn). cbn [den] in Dn.
    destruct Dn as (ua & u1 & -> & Da & ub & u2 & -> & Db & uc & ud & ->
                    & Dc & Dd).
    exists pre, (ua ++ ub ++ uc ++ ud), rest. split; [reflexivity|].
    cbn [den]. exists ua, (ub ++ uc ++ ud). split; [reflexivity|].
    split; [eapply den_context_free; eauto|].
    exists ub, (uc ++ ud). split; [reflexivity|].
    split; [eapply den_context_free; eauto|].
    exists uc, ud. split; [reflexivity|].
    split; [eapply den_context_free; eauto|].
    exists ud, []. split; [symmetry; apply app_nil_r|].
    split; [eapply den_context_free; eauto|apply HE].
Qed.

Lemma re_it_this_head_matches :
  forall s,
    matches_in true re_it_this s <-> matches_in true re_it_this_head s.
Proof.
  intros s. unfold re_it_this, re_it_this_head.
  apply matches_in_seq_tail; try reflexivity.
  intros prev rest. cbn [den]. exists [], []. split; [reflexivity|].
  split; [reflexivity|right; reflexivity].
Qed.

(** ** Parentheses *)

Lemma first_occurrence :
  forall (y : ascii) l,
    In y l -> exists m n, l = m ++ y :: n /\ ~ In y m.
Proof.
  intros y. induction l as [|x l IH]; intros H; [destruct H|].
  destruct (Ascii.eqb_spec x y) as [->|Hne].
  - exists [], l. split; [reflexivity|intros []].
  - destruct H as [H|H]; [contradiction|].
    destruct (IH H) as (m & n & -> & Hm).
    exists (x :: m), n. split; [reflexivity|].
    intros [E|Hin]; [contradiction|apply Hm, Hin].
Qed.

Lemma re_parens_matches :
  forall s, matches_in false re_parens s <-> open_then_close s.
Proof.
  intros s. unfold re_parens. split.
  - intros (pre & u & rest & -> & D). cbn [den] in D.
    destruct D as (u1 & u2 & -> & (x & -> & X) & mid & u3 & -> & _
                   & (y & -> & Y)).
    simpl in X, Y. apply Ascii.eqb_eq in X, Y. subst x y.
    exists pre, mid, rest. rewrite <- !app_assoc. reflexivity.
  - intros (a & b & c & ->).
    assert (Hin : In ")"%char (b ++ ")"%char :: c))
      by (apply in_or_app; right; left; reflexivity).
    destruct (first_occurrence _ _ Hin) as (m & n & E & Hm).
    exists a, ("("%char :: m ++ [")"%char]), n. split.
    + rewrite E. simpl. rewrite <- !app_assoc. reflexivity.
    + cbn [den]. exists ["("%char], (m ++ [")"%char]).
      split; [reflexivity|]. split; [exists "("%char; auto|].
      exists m, [")"%char]. split; [reflexivity|]. split.
      * apply forallb_forall. intros x Hx. simpl.
        destruct (Ascii.eqb_spec x ")"); [subst x; contradiction|reflexivity].
      * exists ")"%char. auto.
Qed.

Lemma open_then_close_app :
  forall x y,
    open_then_close (x ++ y) <->
    open_then_close x \/ open_then_close y \/
    (In "("%char x /\ In ")"%char y).
Proof.
  intros x y. split.
  - revert y. induction x as [|ch x IH]; intros y H; [auto|].
    destruct H as (a & b & c & E). destruct a as [|a0 a].
    + simpl in E. injection E as -> E.
      assert (Hin : In ")"%char (x ++ y)).
      { rewrite E. apply in_or_app. right. left. reflexivity. }
      apply in_app_or in Hin. destruct Hin as [Hin|Hin].
      * left. apply in_split in Hin. destruct Hin as (m & n & ->).
        exists [], m, n. reflexivity.
      * right. right. split; [left; reflexivity|exact Hin].
    + simpl in E. injection E as -> E.
      destruct (IH y) as [H|[H|[H1 H2]]].
      * exists a, b, c. exact E.
      * left. destruct H as (a' & b' & c' & ->).
        exists (a0 :: a'), b', c'. reflexivity.
      * auto.
      * right. right. split; [right; exact H1|exact H2].
  - intros [H|[H|[H1 H2]]].
    + destruct H as (a & b & c & ->). exists a, b, (c ++ y).
      rewrite <- !app_assoc. simpl. rewrite <- app_assoc. reflexivity.
    + destruct H as (a & b & c & ->). exists (x ++ a), b, c.
      rewrite <- !app_assoc. reflexivity.
    + apply in_split in H1, H2.
      destruct H1 as (a & b1 & ->). destruct H2 as (b2 & c & ->).
      exists a, (b1 ++ b2), c. rewrite <- !app_assoc. reflexivity.
Qed.

Lemma open_then_close_infix :
  forall u x, infix u x -> open_then_close u -> open_then_close x.
Proof.
  intros u x (a & b & ->) H.
  apply open_then_close_app. right. left.
  apply open_then_close_app. left. exact H.
Qed.

Lemma in_infix :
  forall (c : ascii) u x, infix u x -> In c u -> In c x.
Proof.
  intros c u x (a & b & ->) H.
  apply in_or_app. right. apply in_or_app. left. exact H.
Qed.

Lemma in_join :
  forall (c : ascii) sep items,
    In c (join sep items) ->
    In c sep \/ exists y, In y items /\ In c y.
Proof.
  intros c sep. induction items as [|x t IH]; intros H; [destruct H|].
  destruct t as [|y t].
  - right. exists x. split; [left; reflexivity|exact H].
  - rewrite join_cons in H. apply in_app_or in H. destruct H as [H|H].
    + right. exists x. split; [left; reflexivity|exact H].
    + apply in_app_or in H. destruct H as [H|H]; [left; exact H|].
      destruct (IH H) as [Hs|(z & Hz & Hc)]; [left; exact Hs|].
      right. exists z. split; [right; exact Hz|exact Hc].
Qed.

Lemma open_then_close_join :
  forall sep items,
    ~ In "("%char sep -> ~ In ")"%char sep -> ~ open_then_close sep ->
    open_then_close (join sep items) -> open_then_close_items items.
Proof.
  intros sep items Ho Hc Hs. induction items as [|x t IH]; intros H.
  - destruct H as (a & b & c & E). destruct a; discriminate.
  - destruct t as [|y t]; [left; exact H|].
    rewrite join_cons in H. cbn [open_then_close_items].
    apply open_then_close_app in H. destruct H as [H|[H|[H1 H2]]].
    + left. exact H.
    + apply open_then_close_app in H. destruct H as [H|[H|[H1 H2]]].
      * contradiction.
      * right. right. apply IH. exact H.
      * contradiction.
    + right. left. split; [exact H1|].
      apply in_app_or in H2. destruct H2 as [H2|H2]; [contradiction|].
      apply in_join in H2. destruct H2 as [H2|H2]; [contradiction|exact H2].
Qed.

Lemma join_items_open_then_close :
  forall sep items,
    open_then_close_items items -> open_then_close (join sep items).
Proof.
  intros sep. induction items as [|x t IH]; intros H; [destruct H|].
  cbn [open_then_close_items] in H. destruct t as [|y t].
  - destruct H as [H|[(_ & z & [] & _)|[]]]. exact H.
  - rewrite join_cons. apply open_then_close_app.
    destruct H as [H|[(H1 & z & Hz & H2)|H]].
    + left. exact H.
    + right. right. split; [exact H1|].
      apply in_or_app. right.
      eapply in_infix; [apply in_join_infix; exact Hz|exact H2].
    + right. left. apply open_then_close_app. right. left.
      apply IH. exact H.
Qed.

Lemma open_then_close_items_filter :
  forall f items,
    open_then_close_items (filter f items) -> open_then_close_items items.
Proof.
  intros f. induction items as [|x t IH]; intros H; [exact H|].
  simpl in H. destruct (f x).
  - cbn [open_then_close_items] in *.
    destruct H as [H|[(H1 & z & Hz & H2)|H]].
    + left. exact H.
    + right. left. split; [exact H1|]. exists z.
      apply filter_In in Hz. destruct Hz as [Hz _]. auto.
    + right. right. apply IH. exact H.
  - cbn [open_then_close_items]. right. right. apply IH. exact H.
Qed.

Lemma open_then_close_items_map :
  forall g items,
    (forall x, infix (g x) x) ->
    open_then_close_items (map g items) -> open_then_close_items items.
Proof.
  intros g items Hg. induction items as [|x t IH]; intros H; [exact H|].
  cbn [map open_then_close_items] in *.
  destruct H as [H|[(H1 & z & Hz & H2)|H]].
  - left. eapply open_then_close_infix; eauto.
  - right. left. split; [eapply in_infix; eauto|].
    apply in_map_iff in Hz. destruct Hz as (z0 & <- & Hz0).
    exists z0. split; [exact Hz0|eapply in_infix; eauto].
  - right. right. apply IH. exact H.
Qed.

Lemma open_then_close_tidy :
  forall s, open_then_close (tidy s) -> open_then_close s.
Proof.
  intros s H. unfold tidy in H.
  apply open_then_close_join in H.
  - apply open_then_close_items_filter in H.
    apply open_then_close_items_map in H.
    + apply (join_items_open_then_close [","%char]) in H.
      rewrite join_split_on in H. exact H.
    + intros x. destruct (strip_split x) as (a & b & E). exists a, b. exact E.
  - simpl. intuition discriminate.
  - simpl. intuition discriminate.
  - intros (a & b & c & E).
    destruct a as [|? [|? a]]; try discriminate; destruct a; discriminate.
Qed.

(** ** [clean_usecase] on pattern-free text *)

Lemma tidy_pattern_free : forall s, pattern_free s -> pattern_free (tidy s).
Proof.
  intros s (H1 & H2 & H3 & H4).
  assert (T : forall ic r,
             (matches_in ic r (tidy s) -> matches_in ic r s) ->
             re_search ic r s = false -> re_search ic r (tidy s) = false).
  { intros ic r Hm Hs. destruct (re_search ic r (tidy s)) eqn:E; [|reflexivity].
    apply re_search_spec, Hm, re_search_spec in E. congruence. }
  split; [|split; [|split]].
  - apply T; [|exact H1]. apply matches_in_tidy; reflexivity.
  - apply T; [|exact H2]. apply matches_in_tidy; reflexivity.
  - apply T; [|exact H3]. intros Hm.
    apply re_parens_matches, open_then_close_tidy, re_parens_matches, Hm.
  - apply T; [|exact H4]. intros Hm.
    apply re_it_this_head_matches. apply re_it_this_head_matches in Hm.
    revert Hm. apply matches_in_tidy; reflexivity.
Qed.

Lemma clean_usecase_pattern_free :
  forall s, pattern_free s -> clean_usecase s = tidy s.
Proof.
  intros s (H1 & H2 & H3 & H4). unfold clean_usecase.
  rewrite (re_sub_empty_no_match _ _ _ H1).
  rewrite (re_sub_empty_no_match _ _ _ H2).
  rewrite (re_sub_empty_no_match _ _ _ H3).
  rewrite (re_sub_empty_no_match _ _ _ H4).
  reflexivity.
Qed.

(** C7, as the specification states it, fails: "lilikeke" holds none of
    the connector phrases and no parenthesis, but cleaning it leaves
    "like", which a second cleaning removes. *)
Lemma clean_usecase_not_idempotent_without_connectors :
  ~ (forall s, free_of_connectors_and_parentheticals s ->
               clean_usecase (clean_usecase s) = clean_usecase s).
Proof.
  intros H. specialize (H (py "lilikeke")).
  assert (F : free_of_connectors_and_parentheticals (py "lilikeke")).
  { split; [|vm_compute; reflexivity].
    intros p Hp. simpl in Hp.
    repeat (destruct Hp as [<-|Hp]; [vm_compute; reflexivity|]).
    destruct Hp. }
  specialize (H F). vm_compute in H. discriminate.
Qed.

(** Each of the patterns the specification leaves out can be put
    together by a removal: an explanatory marker, "used in", an it/this
    clause. *)
Example clean_usecase_twice_differs :
  clean_usecase (py "lilikeke") = py "like" /\
  clean_usecase (py "like") = [] /\
  clean_usecase (py "treused inats fever") = py "treats fever" /\
  clean_usecase (py "treats fever") = py "fever" /\
  clean_usecase (py "ththis a,is is b") = py "this is b" /\
  clean_usecase (py "this is b") = [].
Proof. vm_compute. repeat split. Qed.

(** C7, amended: [clean_usecase] is idempotent on every string in which
    none of the four patterns it removes matches, letter case ignored
    (the connector phrases with "used in" and "used to", the explanatory
    markers, a parenthetical, an it/this clause):
    clean_usecase(clean_usecase(s)) = clean_usecase(s). *)
Theorem clean_usecase_idempotent_on_pattern_free :
  forall s, pattern_free s ->
            clean_usecase (clean_usecase s) = clean_usecase s.
Proof.
  intros s H.
  rewrite (clean_usecase_pattern_free s H).
  rewrite (clean_usecase_pattern_free (tidy s) (tidy_pattern_free s H)).
  apply tidy_idem.
Qed.

Lemma clean_usecase_idempotent_on_pattern_free_witness :
  pattern_free (py "fever ,  Headache,, joint pain ") /\
  clean_usecase (clean_usecase (py "fever ,  Headache,, joint pain "))
  = clean_usecase (py "fever ,  Headache,, joint pain ").
Proof.
  assert (H : pattern_free (py "fever ,  Headache,, joint pain "))
    by (vm_compute; repeat split).
  split; [exact H|].
  apply clean_usecase_idempotent_on_pattern_free. exact H.
Defined.

(** ** End to end *)

(** The three-row example of the specification: the first row is found
    in the lookup table, the answer for the second is a clean list, the
    answer for the third is a sentence. *)
Example three_rows_end_to_end :
  let rows :=
    [ mkRow (py "Augmentin 625 Duo Tablet") (Some (py "Amoxycillin (500mg)"))
            (Some (py "Clavulanic Acid (125mg)")) (py "allopathy") None;
      mkRow (py "Dolo 650 Tablet") (Some (py "Paracetamol (650mg)")) None
            (py "allopathy") None;
      mkRow (py "Zzz Syrup") None None (py "allopathy") None ] in
  let model : Oracle := fun n _ =>
    match n with
    | 0 => Response (py "fever, headache, common cold")
    | _ => Response
             (py "This medicine is used for treatment of fever and related symptoms.")
    end in
  let run := process_dataset_with_fallback model "in.csv" "out.csv" 50
               (example_world rows) in
  option_map (map Usecase)
    (match fst run with Ok df => Some df | Raised _ => None end)
  = Some [ Some (py "bacterial infections, sinusitis, pneumonia, ear infections");
           Some (py "fever, headache, common cold");
           Some unknown ] /\
  queried (trace (snd run)) = [1; 2] /\
  calls (snd run) = 2.
Proof. vm_compute. repeat split. Qed.

(** * Further properties of the code *)

(** ** What a match returns *)

Lemma star_m_sound :
  forall ic cs s prev (k : cont) res,
    star_m ic cs prev s k = Some res ->
    exists u rest, s = u ++ rest /\ forallb (in_set ic cs) u = true /\
                   k (last_of prev u) rest = Some res.
Proof.
  intros ic cs. induction s as [|x t IH]; intros prev k res H;
    cbn [star_m] in H.
  - exists [], []. auto.
  - destruct (in_set ic cs x) eqn:X; [|exists [], (x :: t); auto].
    destruct (star_m ic cs (Some x) t k) as [r|] eqn:S1.
    + injection H as <-. apply IH in S1.
      destruct S1 as (u & rest & -> & Hu & Hk).
      exists (x :: u), rest. simpl. rewrite X, Hu. auto.
    + exists [], (x :: t). auto.
Qed.

Lemma rmatch_sound :
  forall ic r prev s (k : cont) res,
    rmatch ic r prev s k = Some res ->
    exists u rest, s = u ++ rest /\ den ic r prev u rest /\
                   k (last_of prev u) rest = Some res.
Proof.
  intros ic. induction r as [|cs|cs|r1 IH1 r2 IH2|r1 IH1 r2 IH2|r1 IH1|];
    intros prev s k res H; cbn [rmatch den] in *.
  - exists [], s. auto.
  - destruct s as [|x t]; [discriminate|].
    destruct (in_set ic cs x) eqn:X; [|discriminate].
    exists [x], t. split; [reflexivity|]. split; [eauto|exact H].
  - apply star_m_sound. exact H.
  - apply IH1 in H. destruct H as (u1 & rest1 & -> & D1 & H).
    apply IH2 in H. destruct H as (u2 & rest & -> & D2 & H).
    exists (u1 ++ u2), rest. rewrite <- app_assoc.
    split; [reflexivity|]. split; [|rewrite last_of_app; exact H].
    exists u1, u2. auto.
  - destruct (rmatch ic r1 prev s k) as [r|] eqn:M1.
    + injection H as <-. apply IH1 in M1.
      destruct M1 as (u & rest & E & D & Hk). exists u, rest. auto.
    + apply IH2 in H. destruct H as (u & rest & E & D & Hk).
      exists u, rest. auto.
  - destruct (rmatch ic r1 prev s k) as [r|] eqn:M1.
    + injection H as <-. apply IH1 in M1.
      destruct M1 as (u & rest & E & D & Hk). exists u, rest. auto.
    + exists [], s. auto.
  - destruct (at_boundary prev s) eqn:B; [|discriminate].
    exists [], s. auto.
Qed.

Lemma match_at_sound :
  forall ic r prev s rest,
    match_at ic r prev s = Some rest ->
    exists u, s = u ++ rest /\ den ic r prev u rest.
Proof.
  intros ic r prev s rest H. unfold match_at in H.
  apply rmatch_sound in H. destruct H as (u & rest' & E & D & Hk).
  injection Hk as ->. eauto.
Qed.

(** ** What a substitution leaves *)

Lemma sub_from_skip :
  forall ic r u rest k prev,
    length u = k ->
    sub_from ic r k prev (u ++ rest)
    = sub_from ic r 0 (last_of prev u) rest.
Proof.
  intros ic r. induction u as [|x u IH]; intros rest k prev H.
  - simpl in H. subst k. reflexivity.
  - simpl in H. subst k. simpl. apply IH. reflexivity.
Qed.

Lemma sub_from_in :
  forall ic r (c : ascii) s k prev,
    In c (sub_from ic r k prev s) -> In c s.
Proof.
  intros ic r c. induction s as [|x t IH]; intros k prev H; [exact H|].
  cbn [sub_from] in H. destruct k as [|k].
  - destruct (match_at ic r prev (x :: t)) as [rest|].
    + destruct (length (x :: t) - length rest).
      * destruct H as [->|H]; [left; reflexivity|right; eapply IH; eauto].
      * right. eapply IH; eauto.
    + destruct H as [->|H]; [left; reflexivity|right; eapply IH; eauto].
  - right. eapply IH; eauto.
Qed.

Lemma open_then_close_cons :
  forall x y,
    open_then_close (x :: y) <->
    (x = "("%char /\ In ")"%char y) \/ open_then_close y.
Proof.
  intros x y. split.
  - intros (a & b & c & E). destruct a as [|a0 a].
    + simpl in E. injection E as -> ->. left. split; [reflexivity|].
      apply in_or_app. right. left. reflexivity.
    + simpl in E. injection E as -> ->. right. exists a, b, c. reflexivity.
  - intros [[-> H]|(a & b & c & ->)].
    + apply in_split in H. destruct H as (b & c & ->).
      exists [], b, c. reflexivity.
    + exists (x :: a), b, c. reflexivity.
Qed.

(** A substitution only removes text: it cannot bring an opening
    parenthesis in front of a closing one. *)
Lemma sub_from_open_then_close :
  forall ic r s k prev,
    open_then_close (sub_from ic r k prev s) -> open_then_close s.
Proof.
  intros ic r. induction s as [|x t IH]; intros k prev H; [exact H|].
  assert (K : open_then_close (x :: sub_from ic r 0 (Some x) t) ->
              open_then_close (x :: t)).
  { intros Hk. apply open_then_close_cons in Hk. apply open_then_close_cons.
    destruct Hk as [[-> Hin]|Hk].
    - left. split; [reflexivity|eapply sub_from_in; eauto].
    - right. eapply IH; eauto. }
  assert (D : forall n, open_then_close (sub_from ic r n (Some x) t) ->
                        open_then_close (x :: t)).
  { intros n Hn. apply open_then_close_cons. right. eapply IH; eauto. }
  cbn [sub_from] in H. destruct k as [|k]; [|eapply D; eauto].
  destruct (match_at ic r prev (x :: t)) as [rest|]; [|apply K, H].
  destruct (length (x :: t) - length rest); [apply K, H|eapply D; eauto].
Qed.

Lemma re_parens_match_at :
  forall prev t,
    In ")"%char t -> match_at false re_parens prev ("("%char :: t) <> None.
Proof.
  intros prev t Hin. apply match_at_spec.
  destruct (first_occurrence _ _ Hin) as (m & n & -> & Hm).
  exists ("("%char :: m ++ [")"%char]), n. split.
  - simpl. rewrite <- app_assoc. reflexivity.
  - unfold re_parens. cbn [den]. exists ["("%char], (m ++ [")"%char]).
    split; [reflexivity|]. split; [exists "("%char; auto|].
    exists m, [")"%char]. split; [reflexivity|]. split.
    + apply forallb_forall. intros x Hx. simpl.
      destruct (Ascii.eqb_spec x ")"); [subst x; contradiction|reflexivity].
    + exists ")"%char. auto.
Qed.

Lemma re_parens_sub_clean :
  forall n s prev,
    length s <= n ->
    ~ open_then_close (sub_from false re_parens 0 prev s).
Proof.
  induction n as [|n IH]; intros s prev Hlen.
  - destruct s; [|simpl in Hlen; lia].
    intros (a & b & c & E). destruct a; discriminate.
  - destruct s as [|x t].
    + intros (a & b & c & E). destruct a; discriminate.
    + simpl in Hlen. cbn [sub_from].
      destruct (match_at false re_parens prev (x :: t)) as [rest|] eqn:M.
      * apply match_at_sound in M. destruct M as (u & E & D).
        assert (Hu : u <> []) by (eapply den_nonempty; eauto; reflexivity).
        destruct u as [|y u]; [contradiction|].
        simpl in E. injection E as <- ->.
        assert (Hl : length (x :: u ++ rest) - length rest = S (length u))
          by (cbn [length]; rewrite length_app; lia).
        rewrite Hl.
        rewrite sub_from_skip by reflexivity.
        apply IH. rewrite length_app in Hlen. lia.
      * intros H. apply open_then_close_cons in H. destruct H as [[-> Hin]|H].
        -- apply sub_from_in in Hin.
           apply (re_parens_match_at prev t Hin). exact M.
        -- revert H. apply IH. lia.
Qed.

Lemma clean_usecase_no_open_then_close :
  forall s, ~ open_then_close (clean_usecase s).
Proof.
  intros s. unfold clean_usecase, re_sub_empty. intros H.
  apply open_then_close_tidy in H.
  apply sub_from_open_then_close in H.
  revert H. eapply re_parens_sub_clean. apply le_n.
Qed.

(** X1: the result of [clean_usecase] holds no parenthetical: no opening
    parenthesis with a closing one anywhere behind it. *)
Theorem clean_usecase_leaves_no_parenthetical :
  forall s,
    ~ open_then_close (clean_usecase s) /\
    re_search false re_parens (clean_usecase s) = false.
Proof.
  intros s.
  pose proof (clean_usecase_no_open_then_close s) as H.
  split; [exact H|].
  destruct (re_search false re_parens (clean_usecase s)) eqn:E; [|reflexivity].
  exfalso. apply H. apply re_parens_matches, re_search_spec, E.
Qed.

(** X2: the result of [clean_usecase] is a well-formed list: items joined
    by a comma and a space, each item without a comma, without white space
    at its ends, and of 1 to 49 characters; the split, strip, filter and
    join of the last lines leave such a result as it is. *)
Theorem clean_usecase_is_a_comma_list :
  forall s,
    (exists items,
       clean_usecase s = join (py ", ") items /\
       forall item, In item items ->
         0 < length item < 50 /\ ~ In ","%char item /\ strip item = item) /\
    tidy (clean_usecase s) = clean_usecase s.
Proof.
  intros s. unfold clean_usecase.
  set (t := re_sub_empty true re_it_this _). split.
  - exists (filter keep_item (map strip (split_on "," t))).
    split; [reflexivity|]. intros item Hin.
    destruct (tidy_items t item Hin) as (H1 & H2 & H3 & _).
    unfold keep_item in H3. apply andb_true_iff in H3. destruct H3 as [Ha Hb].
    apply Nat.ltb_lt in Ha, Hb. auto.
  - apply tidy_idem.
Qed.

(** ** The validator, completely *)

Lemma den_lit_inv :
  forall l prev u rest,
    den true (lit_chars l) prev u rest -> lower u = lower l.
Proof.
  induction l as [|c l IH]; intros prev u rest D.
  - simpl in D. subst u. reflexivity.
  - destruct l as [|c' l].
    + simpl in D. destruct D as (x & -> & X).
      apply Ascii.eqb_eq in X. simpl. rewrite X. reflexivity.
    + change (lit_chars (c :: c' :: l))
        with (Seq (Chr (COne c)) (lit_chars (c' :: l))) in D.
      cbn [den] in D. destruct D as (u1 & u2 & -> & (x & -> & X) & D2).
      simpl in X. apply Ascii.eqb_eq in X. apply IH in D2.
      change (lower ([x] ++ u2)) with (lower_char x :: lower u2).
      rewrite X, D2. reflexivity.
Qed.

Lemma den_alts_inv :
  forall ic rs r prev u rest,
    den ic (alts r rs) prev u rest ->
    exists r', In r' (r :: rs) /\ den ic r' prev u rest.
Proof.
  intros ic. induction rs as [|r1 rs IH]; intros r prev u rest D.
  - exists r. split; [left; reflexivity|exact D].
  - cbn [alts den] in D. destruct D as [D|D].
    + exists r. split; [left; reflexivity|exact D].
    + destruct (IH _ _ _ _ D) as (r' & Hin & D').
      exists r'. split; [right; exact Hin|exact D'].
Qed.

Lemma den_word_alts_inv :
  forall ws prev u rest,
    ws <> [] ->
    den true (word_alts ws) prev u rest ->
    exists v, In v ws /\ lower u = lower (py v).
Proof.
  intros ws prev u rest Hne D. unfold word_alts in D.
  destruct ws as [|w ws]; [contradiction|].
  change (map lit (w :: ws)) with (lit w :: map lit ws) in D.
  apply den_alts_inv in D. destruct D as (r' & Hin & D).
  change (lit w :: map lit ws) with (map lit (w :: ws)) in Hin.
  apply in_map_iff in Hin. destruct Hin as (v & <- & Hv).
  exists v. split; [exact Hv|]. eapply den_lit_inv; eauto.
Qed.

Lemma verbs_are_lower :
  Forall (fun v => lower (py v) = py v) (modal_verbs ++ action_verbs).
Proof. repeat constructor. Qed.

Lemma re_words_found_inv :
  forall ws s,
    ws <> [] ->
    (forall v, In v ws ->
       py v <> [] /\ forallb is_word (py v) = true /\ lower (py v) = py v) ->
    re_search true (re_words ws) s = true ->
    exists v, In v ws /\ whole_word_in (py v) s.
Proof.
  intros ws s Hne Hws H. apply re_search_spec in H.
  destruct H as (pre & u & rest & -> & D). unfold re_words in D.
  cbn [den] in D.
  destruct D as (u1 & u2 & -> & (-> & B1) & w' & u3 & -> & Dw & (-> & B2)).
  simpl in B1, Dw, B2 |- *. rewrite app_nil_r in *.
  destruct (den_word_alts_inv ws _ _ _ Hne Dw) as (v & Hv & Hl).
  destruct (Hws v Hv) as (Hvn & Hvw & Hvl).
  rewrite Hvl in Hl.
  assert (Hne' : w' <> []) by (intros ->; apply Hvn; symmetry; exact Hl).
  assert (Hw' : forallb is_word w' = true).
  { rewrite <- forallb_is_word_lower, Hl. exact Hvw. }
  exists v. split; [exact Hv|]. exists pre, w', rest.
  split; [reflexivity|]. split; [exact Hl|].
  unfold at_boundary in B1, B2.
  rewrite word_after_app in B1 by assumption.
  rewrite word_before_last in B2 by assumption.
  split.
  - destruct (word_before (last_of None pre)); [discriminate|reflexivity].
  - destruct (word_after rest); [discriminate|reflexivity].
Qed.

(** X3: [validate_usecase] accepts exactly the strings of at most 150
    characters that hold none of the listed verbs as a whole word, in any
    letter case: it rejects for no other reason. *)
Theorem validate_usecase_accepts_exactly :
  forall s,
    validate_usecase s = true <->
    (length s <= 150 /\
     forall v, In v (modal_verbs ++ action_verbs) ->
               ~ whole_word_in (py v) s).
Proof.
  intros s.
  pose proof verbs_are_words as Hw. pose proof verbs_are_lower as Hl.
  rewrite Forall_forall in Hw, Hl.
  assert (Hall : forall ws, incl ws (modal_verbs ++ action_verbs) ->
            forall v, In v ws ->
              py v <> [] /\ forallb is_word (py v) = true /\
              lower (py v) = py v).
  { intros ws Hi v Hv. destruct (Hw v (Hi v Hv)). split; [|split]; auto. }
  unfold validate_usecase. split.
  - destruct (150 <? length s) eqn:L; [discriminate|].
    apply Nat.ltb_ge in L. intros H. split; [exact L|].
    intros v Hv Hin. apply negb_true_iff in H.
    unfold sentence_patterns in H. cbn [existsb] in H.
    apply orb_false_iff in H. destruct H as [H1 H2].
    rewrite orb_false_r in H2.
    destruct (Hw v Hv) as [Hne Hword].
    apply in_app_or in Hv. destruct Hv as [Hv|Hv].
    + rewrite (re_words_found modal_verbs v s Hv Hne Hword Hin) in H1.
      discriminate.
    + rewrite (re_words_found action_verbs v s Hv Hne Hword Hin) in H2.
      discriminate.
  - intros [L H]. apply Nat.ltb_ge in L. rewrite L.
    apply negb_true_iff. unfold sentence_patterns. cbn [existsb].
    rewrite orb_false_r. apply orb_false_iff. split.
    + destruct (re_search true (re_words modal_verbs) s) eqn:E; [|reflexivity].
      apply re_words_found_inv in E;
        [|discriminate|apply Hall, incl_appl, incl_refl].
      destruct E as (v & Hv & Hin). exfalso.
      apply (H v); [apply in_or_app; left; exact Hv|exact Hin].
    + destruct (re_search true (re_words action_verbs) s) eqn:E; [|reflexivity].
      apply re_words_found_inv in E;
        [|discriminate|apply Hall, incl_appr, incl_refl].
      destruct E as (v & Hv & Hin). exfalso.
      apply (H v); [apply in_or_app; right; exact Hv|exact Hin].
Qed.

(** ** Letter case *)

Lemma in_set_lower :
  forall cs x x',
    lower_char x = lower_char x' -> in_set true cs x = in_set true cs x'.
Proof.
  intros [c|c] x x' H; simpl; rewrite H; reflexivity.
Qed.

Lemma last_of_lower :
  forall u u' prev prev',
    option_map lower_char prev = option_map lower_char prev' ->
    lower u = lower u' ->
    option_map lower_char (last_of prev u)
    = option_map lower_char (last_of prev' u').
Proof.
  induction u as [|x u IH]; intros [|x' u'] prev prev' Hp Hu;
    try discriminate; [exact Hp|].
  simpl in Hu. injection Hu as Hx Hu. simpl. apply IH; [|exact Hu].
  simpl. rewrite Hx. reflexivity.
Qed.

Lemma word_before_lower :
  forall prev prev',
    option_map lower_char prev = option_map lower_char prev' ->
    word_before prev = word_before prev'.
Proof.
  intros [c|] [c'|] H; try discriminate; [|reflexivity].
  simpl in *. injection H as H.
  rewrite <- (is_word_lower_char c), H. apply is_word_lower_char.
Qed.

Lemma word_after_lower :
  forall s s', lower s = lower s' -> word_after s = word_after s'.
Proof.
  intros [|c s] [|c' s'] H; try discriminate; [reflexivity|].
  simpl in *. injection H as H _.
  rewrite <- (is_word_lower_char c), H. apply is_word_lower_char.
Qed.

Lemma den_lower :
  forall r prev u rest prev' u' rest',
    option_map lower_char prev = option_map lower_char prev' ->
    lower u = lower u' -> lower rest = lower rest' ->
    den true r prev u rest -> den true r prev' u' rest'.
Proof.
  induction r as [|cs|cs|r1 IH1 r2 IH2|r1 IH1 r2 IH2|r1 IH1|];
    intros prev u rest prev' u' rest' Hp Hu Hr D; cbn [den] in *.
  - subst u. destruct u'; [reflexivity|discriminate].
  - destruct D as (x & -> & X).
    destruct u' as [|x' [|? ?]]; try discriminate.
    simpl in Hu. injection Hu as Hx.
    exists x'. split; [reflexivity|].
    rewrite <- (in_set_lower cs x x' Hx). exact X.
  - revert u' Hu. induction u as [|x u IHu]; intros [|x' u'] Hu;
      try discriminate; [reflexivity|].
    simpl in Hu. injection Hu as Hx Hu. simpl in D |- *.
    apply andb_true_iff in D. destruct D as [X D].
    rewrite <- (in_set_lower cs x x' Hx), X. simpl. apply IHu; assumption.
  - destruct D as (u1 & u2 & -> & D1 & D2).
    unfold lower in Hu. rewrite map_app in Hu. symmetry in Hu.
    apply map_eq_app in Hu. destruct Hu as (u1' & u2' & -> & H1 & H2).
    exists u1', u2'. split; [reflexivity|].
    assert (E1 : lower u1 = lower u1') by (symmetry; exact H1).
    assert (E2 : lower u2 = lower u2') by (symmetry; exact H2).
    split.
    + apply (IH1 prev u1 (u2 ++ rest)); [exact Hp|exact E1| |exact D1].
      unfold lower in *. rewrite !map_app, Hr, E2. reflexivity.
    + apply (IH2 (last_of prev u1) u2 rest); [|exact E2|exact Hr|exact D2].
      apply last_of_lower; assumption.
  - destruct D as [D|D]; [left; eapply IH1|right; eapply IH2]; eauto.
  - destruct D as [D| ->].
    + left. eapply IH1; eauto.
    + right. destruct u'; [reflexivity|discriminate].
  - destruct D as [-> B]. split; [destruct u'; [reflexivity|discriminate]|].
    unfold at_boundary in *.
    rewrite <- (word_before_lower _ _ Hp), <- (word_after_lower _ _ Hr).
    exact B.
Qed.

Lemma matches_in_lower :
  forall r s t, lower s = lower t ->
                matches_in true r s -> matches_in true r t.
Proof.
  intros r s t H (pre & u & rest & -> & D).
  unfold lower in H. rewrite !map_app in H. symmetry in H.
  apply map_eq_app in H. destruct H as (pre' & t' & -> & Hp & H).
  apply map_eq_app in H. destruct H as (u' & rest' & -> & Hu & Hr).
  exists pre', u', rest'. split; [reflexivity|].
  apply (den_lower r (last_of None pre) u rest);
    [|symmetry; exact Hu|symmetry; exact Hr|exact D].
  apply last_of_lower; [reflexivity|symmetry; exact Hp].
Qed.

Lemma re_search_lower :
  forall r s t, lower s = lower t ->
                re_search true r s = re_search true r t.
Proof.
  intros r s t H.
  destruct (re_search true r s) eqn:E1, (re_search true r t) eqn:E2;
    try reflexivity.
  - apply re_search_spec, (matches_in_lower r s t H), re_search_spec in E1.
    congruence.
  - apply re_search_spec, (matches_in_lower r t s (eq_sym H)),
      re_search_spec in E2. congruence.
Qed.

Lemma lower_char_ascii_lower :
  forall c, lower_char (ascii_lower_char c) = lower_char c.
Proof. intros [[] [] [] [] [] [] [] []]; reflexivity. Qed.

Lemma lower_ascii_lower : forall s, lower (ascii_lower s) = lower s.
Proof.
  intros s. unfold lower, ascii_lower. rewrite map_map.
  apply map_ext. apply lower_char_ascii_lower.
Qed.

(** X4: [validate_usecase] does not look at the case of the letters A to
    Z: two strings that differ only in the case of such letters are both
    accepted or both rejected. *)
Theorem validate_usecase_ignores_ascii_case :
  forall s t,
    ascii_lower s = ascii_lower t -> validate_usecase s = validate_usecase t.
Proof.
  intros s t Ha.
  assert (H : lower s = lower t).
  { rewrite <- (lower_ascii_lower s), <- (lower_ascii_lower t), Ha.
    reflexivity. }
  unfold validate_usecase.
  assert (L : length s = length t).
  { apply (f_equal (@length ascii)) in H. unfold lower in H.
    rewrite !length_map in H. exact H. }
  rewrite L. destruct (150 <? length t); [reflexivity|].
  unfold sentence_patterns. cbn [existsb].
  rewrite (re_search_lower _ s t H), (re_search_lower _ s t H). reflexivity.
Qed.

Lemma validate_usecase_ignores_ascii_case_witness :
  validate_usecase (py "Fever MAY rise") = validate_usecase (py "fever may RISE").
Proof.
  apply validate_usecase_ignores_ascii_case. reflexivity.
Defined.

(** ** Substrings *)

Lemma starts_with_spec :
  forall p s, starts_with p s = true <-> exists rest, s = p ++ rest.
Proof.
  induction p as [|a p IH]; intros s.
  - split; [intros _; exists s; reflexivity|reflexivity].
  - destruct s as [|b s]; simpl.
    + split; [discriminate|intros (rest & E); discriminate].
    + rewrite andb_true_iff, IH. split.
      * intros [E (rest & ->)]. apply Ascii.eqb_eq in E. subst b.
        exists rest. reflexivity.
      * intros (rest & E). injection E as -> ->.
        split; [apply Ascii.eqb_refl|exists rest; reflexivity].
Qed.

Lemma contains_spec :
  forall p s, contains p s = true <-> infix p s.
Proof.
  intros p. induction s as [|x s IH]; cbn [contains].
  - rewrite orb_false_r, starts_with_spec. split.
    + intros (rest & E). exists [], rest. exact E.
    + intros (a & b & E). destruct a as [|? ?]; [|discriminate].
      exists b. exact E.
  - rewrite orb_true_iff, starts_with_spec, IH. split.
    + intros [(rest & E)|(a & b & ->)].
      * exists [], rest. exact E.
      * exists (x :: a), b. reflexivity.
    + intros (a & b & E). destruct a as [|y a].
      * left. exists b. exact E.
      * right. simpl in E. injection E as _ ->. exists a, b. reflexivity.
Qed.

Lemma contains_embedded :
  forall p m a b, contains p m = true -> contains p (a ++ m ++ b) = true.
Proof.
  intros p m a b H. apply contains_spec. apply contains_spec in H.
  apply infix_trans with (v := m); [exact H|]. exists a, b. reflexivity.
Qed.

(** X5: a message that holds a rate-limit message is a rate-limit message:
    text put before or behind the message of a rate-limit error (by a
    wrapping exception, say) does not hide it from
    [is_rate_limit_error]. *)
Theorem is_rate_limit_error_survives_wrapping :
  forall msg before behind,
    is_rate_limit_error msg = true ->
    is_rate_limit_error (before ++ msg ++ behind) = true.
Proof.
  intros msg a b H. unfold is_rate_limit_error in *.
  unfold lower in *. rewrite !map_app.
  apply orb_true_iff in H. destruct H as [H|H].
  - apply orb_true_iff in H. destruct H as [H|H].
    + rewrite (contains_embedded _ _ a b H). reflexivity.
    + rewrite (contains_embedded _ _ _ _ H), orb_true_r. reflexivity.
  - rewrite (contains_embedded _ _ _ _ H). apply orb_true_r.
Qed.

Lemma is_rate_limit_error_survives_wrapping_witness :
  is_rate_limit_error
    (py "RetryError: " ++ py "Quota exceeded" ++ py " (see logs)") = true.
Proof.
  apply is_rate_limit_error_survives_wrapping. reflexivity.
Defined.

(** ** The lookup by name *)

Lemma lookup_by_name_some :
  forall name d v,
    lookup_by_name name d = Some v ->
    exists key, In (key, v) d /\ infix (lower key) (lower name).
Proof.
  intros name. induction d as [|[k v0] d IH]; intros v H; [discriminate|].
  cbn [lookup_by_name] in H.
  destruct (contains (lower k) (lower name)) eqn:C.
  - injection H as <-. exists k. split; [left; reflexivity|].
    apply contains_spec. exact C.
  - destruct (IH v H) as (key & Hin & Hc).
    exists key. split; [right; exact Hin|exact Hc].
Qed.

Lemma lookup_by_name_none :
  forall name d,
    lookup_by_name name d = None <->
    forall key v, In (key, v) d -> ~ infix (lower key) (lower name).
Proof.
  intros name. induction d as [|[k v0] d IH]; cbn [lookup_by_name].
  - split; [intros _ key v []|reflexivity].
  - destruct (contains (lower k) (lower name)) eqn:C.
    + split; [discriminate|]. intros H. exfalso.
      apply (H k v0); [left; reflexivity|]. apply contains_spec. exact C.
    + rewrite IH. split.
      * intros H key v [E|Hin]; [|eapply H; eauto].
        injection E as <- <-. intros Hc. apply contains_spec in Hc. congruence.
      * intros H key v Hin. apply (H key v). right. exact Hin.
Qed.

(** Every value of the table is a resolved usecase that the validator
    accepts. *)
Lemma table_values_are_resolved :
  Forall (fun kv => is_empty (snd kv) = false /\
                    unresolved (Some (snd kv)) = false /\
                    validate_usecase (snd kv) = true)
         COMMON_MEDICINE_USECASES.
Proof. repeat constructor. Qed.

Lemma lookup_hit_resolved :
  forall medicine_name compositions v,
    get_usecase_from_lookup medicine_name compositions = Some v ->
    is_empty v = false /\ unresolved (Some v) = false /\
    validate_usecase v = true.
Proof.
  intros name comps v H. rewrite get_usecase_from_lookup_name_only in H.
  destruct (lookup_by_name_some _ _ _ H) as (key & Hin & _).
  pose proof table_values_are_resolved as T. rewrite Forall_forall in T.
  apply (T _ Hin).
Qed.

(** X6: the compositions never change the answer of
    [get_usecase_from_lookup]: it is the answer for the name alone. *)
Theorem get_usecase_from_lookup_ignores_compositions :
  forall medicine_name compositions,
    get_usecase_from_lookup medicine_name compositions
    = get_usecase_from_lookup medicine_name [].
Proof.
  intros. rewrite !get_usecase_from_lookup_name_only. reflexivity.
Qed.

(** X7: [get_usecase_from_lookup] answers with the value of a key exactly
    when a key of the table stands in the name, letter case ignored;
    the value it returns is never empty, is no unresolved marker, and
    passes [validate_usecase].  It answers [None] exactly when no key
    stands in the name. *)
Theorem get_usecase_from_lookup_by_name :
  forall medicine_name compositions,
    (forall v,
       get_usecase_from_lookup medicine_name compositions = Some v ->
       (exists key, In (key, v) COMMON_MEDICINE_USECASES /\
                    infix (lower key) (lower medicine_name)) /\
       v <> [] /\ unresolved (Some v) = false /\
       validate_usecase v = true) /\
    (get_usecase_from_lookup medicine_name compositions = None <->
     forall key v, In (key, v) COMMON_MEDICINE_USECASES ->
                   ~ infix (lower key) (lower medicine_name)).
Proof.
  intros name comps. rewrite get_usecase_from_lookup_name_only. split.
  - intros v H. destruct (lookup_by_name_some _ _ _ H) as (key & Hin & Hc).
    split; [eauto|].
    destruct (lookup_hit_resolved name [] v) as (H1 & H2 & H3).
    { rewrite get_usecase_from_lookup_name_only. exact H. }
    split; [intros ->; discriminate|auto].
  - apply lookup_by_name_none.
Qed.

Lemma get_usecase_from_lookup_by_name_witness :
  exists key,
    In (key, py "fever, pain, headache") COMMON_MEDICINE_USECASES /\
    infix (lower key) (lower (py "PARACETAMOL 500 Tablet")).
Proof.
  apply (proj1 (get_usecase_from_lookup_by_name
                  (py "PARACETAMOL 500 Tablet") [])
               (py "fever, pain, headache")).
  vm_compute. reflexivity.
Defined.

(** ** The first pass *)

Lemma first_pass_row_cases :
  forall row,
    (first_pass_row row = row /\
     (unresolved (Usecase row) = false \/
      get_usecase_from_lookup (name row)
        [short_composition1 row; short_composition2 row] = None)) \/
    (exists v,
       unresolved (Usecase row) = true /\
       get_usecase_from_lookup (name row)
         [short_composition1 row; short_composition2 row] = Some v /\
       first_pass_row row = with_usecase (Some v) row /\
       unresolved (Some v) = false).
Proof.
  intros row. unfold first_pass_row.
  destruct (unresolved (Usecase row)) eqn:U; [|left; auto].
  destruct (get_usecase_from_lookup _ _) as [v|] eqn:L; [|left; auto].
  destruct (lookup_hit_resolved _ _ _ L) as (H1 & H2 & _).
  right. exists v. rewrite H1. auto.
Qed.

(** X8: the first pass changes nothing but the usecase of a row, and only
    of an unresolved row whose name holds a key of the table; such a row
    gets the value of the lookup and is resolved from then on, so a second
    first pass changes nothing more. *)
Theorem first_pass_row_fills_once :
  forall row,
    (exists v, first_pass_row row = with_usecase v row) /\
    (unresolved (Usecase row) = false -> first_pass_row row = row) /\
    (forall v,
       unresolved (Usecase row) = true ->
       get_usecase_from_lookup (name row)
         [short_composition1 row; short_composition2 row] = Some v ->
       first_pass_row row = with_usecase (Some v) row /\
       unresolved (Usecase (first_pass_row row)) = false) /\
    first_pass_row (first_pass_row row) = first_pass_row row.
Proof.
  intros row.
  destruct (first_pass_row_cases row)
    as [[E H]|(v & U & L & E & R)]; rewrite E.
  - split; [exists (Usecase row); destruct row; reflexivity|].
    split; [reflexivity|]. split; [|exact E].
    intros v U L. destruct H as [H|H]; congruence.
  - split; [eauto|]. split; [congruence|]. split.
    + intros v' _ L'. assert (v' = v) by congruence. subst v'.
      split; [reflexivity|exact R].
    + apply first_pass_row_resolved. exact R.
Qed.

Lemma first_pass_row_fills_once_witness :
  let row := example_row "Paracetamol 500" None in
  first_pass_row row = with_usecase (Some (py "fever, pain, headache")) row /\
  unresolved (Usecase (first_pass_row row)) = false.
Proof.
  intros row.
  apply (proj1 (proj2 (proj2 (first_pass_row_fills_once row)))).
  - reflexivity.
  - vm_compute. reflexivity.
Defined.

(** ** What the query returns *)

Lemma usecase_of_response_facts :
  forall text,
    let u := usecase_of_response text in
    u <> [] /\ tidy u = u /\ ~ open_then_close u /\
    (u = unknown \/
     u = clean_usecase (strip_chars (dq ++ sq) (strip text))).
Proof.
  intros text. unfold usecase_of_response. cbv zeta.
  set (c := clean_usecase _).
  destruct c as [|x c'] eqn:E; cbn [is_empty is_nil].
  - split; [discriminate|]. split; [reflexivity|]. split; [|left; reflexivity].
    intros H. apply re_parens_matches, re_search_spec in H.
    vm_compute in H. discriminate.
  - split; [discriminate|]. rewrite <- E. unfold c.
    split; [unfold clean_usecase; apply tidy_idem|].
    split; [apply clean_usecase_no_open_then_close|right; reflexivity].
Qed.

Lemma answer_ok_facts :
  forall o u,
    answer_of o = Ok u ->
    u <> [] /\ tidy u = u /\ ~ open_then_close u /\
    (u = unknown \/
     exists text, o = Response text /\
       u = clean_usecase (strip_chars (dq ++ sq) (strip text))).
Proof.
  intros [text|msg] u H; simpl in H.
  - injection H as <-.
    destruct (usecase_of_response_facts text) as (H1 & H2 & H3 & H4).
    split; [exact H1|]. split; [exact H2|]. split; [exact H3|].
    destruct H4 as [H4|H4]; [left; exact H4|right; eauto].
  - destruct (is_rate_limit_error msg); [discriminate|].
    injection H as <-.
    split; [discriminate|]. split; [reflexivity|]. split; [|left; reflexivity].
    intros H. apply re_parens_matches, re_search_spec in H.
    vm_compute in H. discriminate.
Qed.

(** X9: what [get_medicine_usecase] returns is never the empty string: it
    is the sentinel, or the cleaned text of one of the at most three
    responses of the model; and it is always a well-formed list (the tidy
    step leaves it as it is) without a parenthetical. *)
Theorem get_medicine_usecase_returns_a_list :
  forall model row w u w',
    get_medicine_usecase model row w = (Ok u, w') ->
    u <> [] /\ tidy u = u /\ ~ open_then_close u /\
    (u = unknown \/
     exists n text,
       calls w <= n < calls w + 3 /\
       model n (prompt_of row) = Response text /\
       u = clean_usecase (strip_chars (dq ++ sq) (strip text))).
Proof.
  intros model row w u w'. rewrite get_medicine_usecase_policy.
  unfold retry_policy. intros H.
  assert (K : forall n, calls w <= n < calls w + 3 ->
                answer_of (model n (prompt_of row)) = Ok u ->
                u <> [] /\ tidy u = u /\ ~ open_then_close u /\
                (u = unknown \/
                 exists n text,
                   calls w <= n < calls w + 3 /\
                   model n (prompt_of row) = Response text /\
                   u = clean_usecase (strip_chars (dq ++ sq) (strip text)))).
  { intros n Hn A. destruct (answer_ok_facts _ _ A) as (H1 & H2 & H3 & H4).
    split; [exact H1|]. split; [exact H2|]. split; [exact H3|].
    destruct H4 as [H4|(text & H4 & H5)]; [left; exact H4|].
    right. exists n, text. auto. }
  destruct (retried (model (calls w) (prompt_of row)));
    [destruct (retried (model (S (calls w)) (prompt_of row)))|];
    injection H as H _; eapply K; eauto; lia.
Qed.

Lemma get_medicine_usecase_returns_a_list_witness :
  let row := example_row "Crocin" None in
  let w := example_world [row] in
  py "fever" <> [] /\ tidy (py "fever") = py "fever".
Proof.
  intros row w.
  destruct (get_medicine_usecase_returns_a_list
              (always_answers " 'Used for fever (mild)' ") row w (py "fever")
              (called (prompt_of row) w)) as (H1 & H2 & _).
  - vm_compute. reflexivity.
  - split; assumption.
Defined.

(** ** Queries and calls of a run *)

Lemma apply_results_length :
  forall rd df, length (apply_results rd df) = length df.
Proof.
  unfold apply_results. induction rd as [|[k v] rd IH]; intros df;
    [reflexivity|].
  simpl. rewrite IH. apply set_usecase_length.
Qed.

Lemma queried_app :
  forall a b, queried (a ++ b) = queried a ++ queried b.
Proof.
  induction a as [|e a IH]; intros b; [reflexivity|].
  destruct e; simpl; rewrite IH; reflexivity.
Qed.

Lemma for_each_prefix_inv :
  forall (A S : Type) (P : list A -> S -> World -> Prop)
         (body : A -> S -> M S) (items done : list A),
    (forall d x s w, (exists rest, done ++ items = d ++ x :: rest) ->
       In x items -> P d s w ->
       exists s' w', body x s w = (Ok s', w') /\ P (d ++ [x]) s' w') ->
    forall s w, P done s w ->
      exists s' w',
        for_each items body s w = (Ok s', w') /\ P (done ++ items) s' w'.
Proof.
  intros A S P body. induction items as [|x t IH]; intros done Hb s w Hp.
  - exists s, w. rewrite app_nil_r. split; [reflexivity|exact Hp].
  - destruct (Hb done x s w) as (s1 & w1 & E1 & P1);
      [exists t; reflexivity|left; reflexivity|exact Hp|].
    destruct (IH (done ++ [x])) with (s := s1) (w := w1)
      as (s2 & w2 & E2 & P2); [|exact P1|].
    + intros d y s' w' (rest & E) Hy Hd. apply Hb; [|right; exact Hy|exact Hd].
      exists rest. rewrite <- E, <- app_assoc. reflexivity.
    + exists s2, w2. split.
      * cbn [for_each]. unfold bind. rewrite E1. exact E2.
      * rewrite <- app_assoc in P2. exact P2.
Qed.

Lemma rows_to_process_ext :
  forall df df' a b,
    (forall i, a <= i -> nth_error df i = nth_error df' i) ->
    rows_to_process df a b = rows_to_process df' a b.
Proof.
  intros df df' a b H. unfold rows_to_process.
  apply filter_ext_in. intros i Hi. apply in_seq in Hi.
  rewrite H by lia. reflexivity.
Qed.

Lemma rows_to_process_split :
  forall df a b c,
    a <= b <= c ->
    rows_to_process df a c
    = rows_to_process df a b ++ rows_to_process df b c.
Proof.
  intros df a b c H. unfold rows_to_process.
  replace (c - a) with ((b - a) + (c - b)) by lia.
  rewrite seq_app, filter_app.
  replace (a + (b - a)) with b by lia. reflexivity.
Qed.

Lemma rows_to_process_empty :
  forall df a b, b <= a -> rows_to_process df a b = [].
Proof.
  intros df a b H. unfold rows_to_process.
  replace (b - a) with 0 by lia. reflexivity.
Qed.

Section Queries.

Variable model : Oracle.
Variable output_file : string.

Lemma get_medicine_usecase_trace :
  forall row w r w',
    get_medicine_usecase model row w = (r, w') ->
    files w' = files w /\
    calls w + 1 <= calls w' <= calls w + 3 /\
    exists evs, added w w' evs /\ queried evs = [] /\ saves evs = [].
Proof.
  intros row w r w'. rewrite get_medicine_usecase_policy. unfold retry_policy.
  set (p := prompt_of row). set (n := calls w). intros H.
  destruct (retried (model n p)); [destruct (retried (model (S n) p))|];
    injection H as _ <-; (split; [reflexivity|split; [simpl; lia|]]).
  - exists [EvCall n p; EvBackoff 1; EvCall (S n) p; EvBackoff 2;
            EvCall (S (S n)) p].
    split; [|split; reflexivity].
    unfold added. simpl. rewrite <- !app_assoc. reflexivity.
  - exists [EvCall n p; EvBackoff 1; EvCall (S n) p].
    split; [|split; reflexivity].
    unfold added. simpl. rewrite <- !app_assoc. reflexivity.
  - exists [EvCall n p]. split; [|split; reflexivity]. reflexivity.
Qed.

(** One turn of the row loop, on a row of the table. *)
Lemma process_row_trace :
  forall idx df rd row w,
    nth_error df idx = Some row ->
    exists df' rd' w' evs,
      process_row model output_file idx (df, rd) w = (Ok (df', rd'), w') /\
      added w w' evs /\ queried evs = [idx] /\
      calls w + 1 <= calls w' <= calls w + 3 /\
      length df' = length df /\
      length rd' < 20 /\
      (forall i, i <> idx -> (forall k v, In (k, v) rd -> k <> i) ->
                 nth_error df' i = nth_error df i) /\
      (forall k v, In (k, v) rd' -> k = idx \/ exists v', In (k, v') rd) /\
      (forall p, p <> output_file -> files w' p = files w p).
Proof.
  intros idx df rd row w Hrow.
  assert (Hother : forall p d w1, p <> output_file ->
            files (saved output_file d w1) p = files w1 p).
  { intros p d w1 Hp. simpl. unfold write_file.
    destruct (String.eqb_spec p output_file); [contradiction|reflexivity]. }
  destruct (get_medicine_usecase model row (logged (EvQuery idx) w))
    as [[u|e] w1] eqn:G;
    destruct (get_medicine_usecase_trace _ _ _ _ G)
      as (Hf & Hc & evs & Ha & Hq & _);
    simpl in Hc; unfold added in Ha; simpl in Ha.
  - rewrite (process_row_eq_ok model output_file _ _ _ _ _ _ _ Hrow G).
    set (rd1 := dict_set idx (checked u) rd).
    assert (Hk : forall k v, In (k, v) rd1 -> k = idx \/ exists v', In (k, v') rd).
    { intros k v Hin. apply dict_set_in in Hin.
      destruct Hin as [[-> _]|Hin]; [left; reflexivity|right; eauto]. }
    unfold save_progress. destruct (20 <=? length rd1) eqn:L.
    + exists (apply_results rd1 df), [],
        (saved output_file (apply_results rd1 df) (logged EvRowDelay w1)),
        (EvQuery idx :: evs ++ [EvRowDelay; EvSave output_file
                                              (apply_results rd1 df)]).
      split; [reflexivity|]. split; [|split; [|split; [|split; [|split;
        [|split; [|split]]]]]].
      * unfold added. simpl. rewrite Ha, <- !app_assoc. reflexivity.
      * simpl. rewrite queried_app, Hq. reflexivity.
      * simpl. exact Hc.
      * apply apply_results_length.
      * simpl. lia.
      * intros i Hi Hrd. apply apply_results_other.
        intros k v Hin. destruct (Hk k v Hin) as [->|(v' & Hin')];
          [congruence|eapply Hrd; eauto].
      * intros k v [].
      * intros p Hp. rewrite Hother by exact Hp. simpl. rewrite Hf.
        reflexivity.
    + apply Nat.leb_gt in L.
      exists df, rd1, (logged EvRowDelay w1),
        (EvQuery idx :: evs ++ [EvRowDelay]).
      split; [reflexivity|]. split; [|split; [|split; [|split; [|split;
        [|split; [|split]]]]]].
      * unfold added. simpl. rewrite Ha, <- !app_assoc. reflexivity.
      * simpl. rewrite queried_app, Hq. reflexivity.
      * simpl. exact Hc.
      * reflexivity.
      * exact L.
      * reflexivity.
      * exact Hk.
      * intros p Hp. simpl. rewrite Hf. reflexivity.
  - destruct (get_medicine_usecase_world model output_file df _ _ _ _ G)
      as (_ & _ & HR).
    rewrite (process_row_eq_raised model output_file _ _ _ _ _ _ _ Hrow G
               (HR e eq_refl)).
    exists (apply_results rd df), [],
      (logged EvRateLimitWait (saved output_file (apply_results rd df) w1)),
      (EvQuery idx :: evs ++ [EvSave output_file (apply_results rd df);
                              EvRateLimitWait]).
    split; [reflexivity|]. split; [|split; [|split; [|split; [|split;
      [|split; [|split]]]]]].
    + unfold added. simpl. rewrite Ha, <- !app_assoc. reflexivity.
    + simpl. rewrite queried_app, Hq. reflexivity.
    + simpl. exact Hc.
    + apply apply_results_length.
    + simpl. lia.
    + intros i Hi Hrd. apply apply_results_other.
      intros k v Hin. eapply Hrd; eauto.
    + intros k v [].
    + intros p Hp. simpl. unfold write_file.
      destruct (String.eqb_spec p output_file); [contradiction|].
      rewrite Hf. reflexivity.
Qed.

End Queries.

Section QueryRun.

Variable model : Oracle.
Variable output_file : string.
Variable df0 : DataFrame.
Variable w0 : World.
Variable batch_size : nat.

Local Abbreviation upto j := (Nat.min (j * batch_size) (length df0)).

Lemma query_inv_weaken :
  forall qs lo lo' st w,
    lo <= lo' -> query_inv df0 w0 qs lo st w -> query_inv df0 w0 qs lo' st w.
Proof.
  intros qs lo lo' st w Hl (H1 & H2 & H3 & H4 & H5).
  split; [exact H1|split; [exact H2|split; [exact H3|split]]].
  - intros i Hi. apply H4. lia.
  - intros k v Hin. specialize (H5 k v Hin). lia.
Qed.

Lemma process_batch_queries :
  forall j st w,
    query_inv df0 w0 (rows_to_process df0 0 (upto j)) (j * batch_size) st w /\
    snd st = [] ->
    exists st' w',
      process_batch model output_file batch_size (length df0) j st w
      = (Ok st', w') /\
      query_inv df0 w0 (rows_to_process df0 0 (upto (S j)))
        (S j * batch_size) st' w' /\
      snd st' = [].
Proof.
  intros j [df rd] w [Q Hrd]. simpl in Hrd. subst rd.
  unfold process_batch.
  set (start_idx := j * batch_size).
  set (end_idx := Nat.min (start_idx + batch_size) (length df0)).
  set (todo := rows_to_process df start_idx end_idx).
  assert (Hend : end_idx = upto (S j)).
  { unfold end_idx, start_idx. f_equal. simpl. lia. }
  assert (Htodo : todo = rows_to_process df0 start_idx end_idx).
  { apply rows_to_process_ext. intros i Hi.
    destruct Q as (_ & _ & _ & Hun & _). apply Hun. exact Hi. }
  assert (Hqs : rows_to_process df0 0 (upto j) ++ todo
                = rows_to_process df0 0 (upto (S j))).
  { rewrite Htodo, <- Hend.
    destruct (Nat.le_gt_cases start_idx (length df0)) as [Hle|Hgt].
    - replace (upto j) with start_idx by (unfold start_idx; lia).
      symmetry. apply rows_to_process_split. unfold end_idx. lia.
    - rewrite (rows_to_process_empty df0 start_idx end_idx)
        by (unfold end_idx; lia).
      rewrite app_nil_r. f_equal. unfold end_idx, start_idx in *. lia. }
  destruct (length todo =? 0) eqn:E.
  - apply Nat.eqb_eq in E. apply length_zero_iff_nil in E.
    exists (df, []), w. split; [reflexivity|]. split; [|reflexivity].
    rewrite <- Hqs, E, app_nil_r.
    apply query_inv_weaken with (lo := j * batch_size); [simpl; lia|exact Q].
  - assert (Hlt : start_idx < end_idx).
    { destruct (Nat.lt_ge_cases start_idx end_idx) as [H|H]; [exact H|].
      unfold todo in E. rewrite rows_to_process_empty in E by exact H.
      discriminate. }
    destruct (for_each_prefix_inv nat LoopState
                (fun d st w =>
                   query_inv df0 w0 (rows_to_process df0 0 (upto j) ++ d)
                     end_idx st w)
                (process_row model output_file) todo [])
      with (s := (df, @nil (nat * str))) (w := logged EvBatchDelay w)
      as ([df1 rd1] & w1 & E1 & Q1).
    { intros d x [dfc rdc] wc _ Hx
             ((evs & Ha & Hq) & Hc & Hlen & Hun & Hkeys).
      simpl fst in *. simpl snd in *.
      apply rows_to_process_in in Hx. destruct Hx as [Hx _].
      assert (Hxn : x < length df0) by (unfold end_idx in Hx; lia).
      destruct (nth_error dfc x) as [row|] eqn:Hrow;
        [|apply nth_error_None in Hrow; lia].
      destruct (process_row_trace model output_file x dfc rdc row wc Hrow)
        as (df' & rd' & w' & evs' & Ep & Ha' & Hq' & Hc' & Hl' & _ & Hun'
            & Hk' & _).
      exists (df', rd'), w'. split; [exact Ep|].
      split; [|split; [|split; [|split]]]; simpl fst; simpl snd.
      - exists (evs ++ evs'). split.
        + unfold added in *. rewrite Ha', Ha, app_assoc. reflexivity.
        + rewrite queried_app, Hq, Hq', app_assoc. reflexivity.
      - rewrite !length_app in *. simpl. lia.
      - congruence.
      - intros i Hi. rewrite Hun'.
        + apply Hun. exact Hi.
        + lia.
        + intros k v Hin. specialize (Hkeys k v Hin). lia.
      - intros k v Hin. destruct (Hk' k v Hin) as [->|(v' & Hin')];
          [lia|eapply Hkeys; eauto]. }
    { rewrite app_nil_r.
      apply query_inv_weaken with (lo := j * batch_size);
        [fold start_idx; lia|].
      destruct Q as ((evs & Ha & Hq) & Hc & Hlen & Hun & Hkeys).
      split; [|split; [exact Hc|split; [exact Hlen|split; assumption]]].
      exists (evs ++ [EvBatchDelay]). split.
      - unfold added in *. simpl. rewrite Ha, app_assoc. reflexivity.
      - rewrite queried_app, Hq. simpl. apply app_nil_r. }
    simpl app in Q1. rewrite Hqs in Q1.
    unfold bind, emit. rewrite E1. unfold to_csv, ret.
    eexists _, _. split; [reflexivity|].
    destruct Q1 as ((evs & Ha & Hq) & Hc & Hlen & Hun & Hkeys).
    simpl fst in *. simpl snd in *.
    assert (Hst : fst (if is_nil rd1 then (df1, rd1)
                       else (apply_results rd1 df1, []))
                  = apply_results rd1 df1 /\
                  snd (if is_nil rd1 then (df1, rd1)
                       else (apply_results rd1 df1, [])) = []).
    { destruct rd1; split; reflexivity. }
    destruct Hst as [Hst1 Hst2].
    split; [|exact Hst2].
    split; [|split; [|split; [|split]]].
    + exists (evs ++ [EvSave output_file
                        (fst (if is_nil rd1 then (df1, rd1)
                              else (apply_results rd1 df1, [])))]).
      split.
      * unfold added in *. simpl. rewrite Ha, app_assoc. reflexivity.
      * rewrite queried_app, Hq. simpl. apply app_nil_r.
    + simpl. exact Hc.
    + rewrite Hst1, apply_results_length. exact Hlen.
    + intros i Hi. rewrite Hst1, apply_results_other.
      * apply Hun. rewrite Hend. simpl in Hi. lia.
      * intros k v Hin. specialize (Hkeys k v Hin).
        rewrite Hend in Hkeys. simpl in Hi. lia.
    + rewrite Hst2. intros k v [].
Qed.

Lemma process_dataset_queries :
  forall input_file,
    read_csv input_file w0 = (Ok df0, w0) ->
    batch_size <> 0 ->
    exists df w',
      process_dataset model input_file output_file batch_size w0
      = (Ok df, w') /\
      query_inv df0 w0 (rows_to_process df0 0 (length df0))
        ((length df0 + batch_size - 1) / batch_size * batch_size)
        (df, []) w'.
Proof.
  intros input_file Hread Hb.
  unfold process_dataset, bind. rewrite Hread.
  destruct (Nat.eqb_spec batch_size 0) as [|_]; [contradiction|].
  destruct (for_each_seq_inv LoopState
              (fun j st w =>
                 query_inv df0 w0 (rows_to_process df0 0 (upto j))
                   (j * batch_size) st w /\ snd st = [])
              (process_batch model output_file batch_size (length df0))
              ((length df0 + batch_size - 1) / batch_size) 0)
    with (s := (df0, @nil (nat * str))) (w := w0)
    as ([df rd] & w' & E & Q & Hrd).
  { intros j s w _ Hs. apply process_batch_queries. exact Hs. }
  { split; [|reflexivity]. simpl.
    split; [exists []; split; [unfold added; rewrite app_nil_r|]; reflexivity|].
    split; [simpl; lia|]. split; [reflexivity|].
    split; [reflexivity|intros k v []]. }
  simpl in Hrd. subst rd. rewrite E. unfold ret. simpl fst.
  exists df, w'. split; [reflexivity|].
  simpl Nat.add in Q.
  replace (upto ((length df0 + batch_size - 1) / batch_size))
    with (length df0) in Q
    by (pose proof (batches_cover df0 batch_size Hb); lia).
  exact Q.
Qed.

End QueryRun.

Lemma process_dataset_raised :
  forall model input_file output_file batch_size w e w',
    process_dataset model input_file output_file batch_size w
    = (Raised e, w') ->
    w' = w /\ (files w input_file = None \/ batch_size = 0).
Proof.
  intros model input_file output_file batch_size w e w' H.
  destruct (files w input_file) as [f|] eqn:F.
  - destruct (Nat.eq_dec batch_size 0) as [->|Hb].
    + unfold process_dataset, bind, read_csv in H. rewrite F in H.
      simpl in H. injection H as _ <-. auto.
    + destruct (process_dataset_inv model output_file
                  (map parse_row
                     (if usecase_column f then records f
                      else map (with_usecase None) (records f)))
                  w batch_size input_file) as (df & w'' & E & _).
      * unfold read_csv. rewrite F. reflexivity.
      * exact Hb.
      * rewrite E in H. discriminate.
  - unfold process_dataset, bind, read_csv in H. rewrite F in H.
    injection H as _ <-. auto.
Qed.

(** X10: [process_dataset] queries exactly the rows that were unresolved
    when the table was read (null, empty or unknown), each of them once and
    in the order of the table, and every query costs one to three calls of
    the model. *)
Theorem process_dataset_queries_each_unresolved_row_once :
  forall model input_file output_file batch_size w df w',
    process_dataset model input_file output_file batch_size w = (Ok df, w') ->
    exists df0 evs,
      read_csv input_file w = (Ok df0, w) /\
      added w w' evs /\
      queried evs = rows_to_process df0 0 (length df0) /\
      NoDup (queried evs) /\
      (forall i, In i (queried evs) <-> unresolved_at df0 i) /\
      calls w + length (queried evs) <= calls w' /\
      calls w' <= calls w + 3 * length (queried evs).
Proof.
  intros model input_file output_file batch_size w df w' H.
  destruct (process_dataset_returns _ _ _ _ _ _ _ H) as (df0 & Hread & Hb & _).
  destruct (process_dataset_queries model output_file df0 w batch_size
              input_file Hread Hb)
    as (df' & w'' & E & (evs & Ha & Hq) & Hc & _).
  rewrite E in H. injection H as -> ->.
  exists df0, evs. split; [exact Hread|]. split; [exact Ha|].
  split; [exact Hq|]. rewrite Hq. split; [|split; [|lia]].
  - unfold rows_to_process. apply NoDup_filter, seq_NoDup.
  - intros i. rewrite rows_to_process_in. split.
    + intros (_ & row & Hrow & U). exists row. auto.
    + intros (row & Hrow & U). split; [|eauto].
      assert (i < length df0) by (apply nth_error_Some; congruence). lia.
Qed.

Lemma process_dataset_queries_each_unresolved_row_once_witness :
  let rows := [example_row "Crocin" (Some (py "fever"));
               example_row "Calpol" (Some unknown);
               example_row "Dolo" None] in
  let w := example_world rows in
  exists df0 evs,
    read_csv "in.csv" w = (Ok df0, w) /\
    added w (snd (process_dataset (always_answers "fever, pain")
                    "in.csv" "out.csv" 2 w)) evs /\
    queried evs = rows_to_process df0 0 (length df0).
Proof.
  intros rows w.
  destruct (process_dataset_queries_each_unresolved_row_once
              (always_answers "fever, pain") "in.csv" "out.csv" 2 w
              [example_row "Crocin" (Some (py "fever"));
               example_row "Calpol" (Some (py "fever, pain"));
               example_row "Dolo" (Some (py "fever, pain"))]
              (snd (process_dataset (always_answers "fever, pain")
                      "in.csv" "out.csv" 2 w)))
    as (df0 & evs & H1 & H2 & H3 & _).
  - vm_compute. reflexivity.
  - exists df0, evs. auto.
Defined.

Lemma for_each_unchanged :
  forall (A S : Type) (items : list A) (body : A -> S -> M S) s w,
    (forall x, In x items -> body x s w = (Ok s, w)) ->
    for_each items body s w = (Ok s, w).
Proof.
  intros A S. induction items as [|x t IH]; intros body s w H;
    [reflexivity|].
  cbn [for_each]. unfold bind. rewrite (H x (or_introl eq_refl)).
  apply IH. intros y Hy. apply H. right. exact Hy.
Qed.

Lemma rows_to_process_all_resolved :
  forall df a b,
    (forall r, In r df -> unresolved (Usecase r) = false) ->
    rows_to_process df a b = [].
Proof.
  intros df a b H. unfold rows_to_process.
  induction (seq a (b - a)) as [|i l IH]; [reflexivity|].
  simpl. destruct (nth_error df i) as [r|] eqn:E; [|exact IH].
  rewrite (H r (nth_error_In _ _ E)). exact IH.
Qed.

(** X11: on a table without an unresolved row [process_dataset] calls the
    model for nothing, waits nowhere and saves no table: apart from the
    progress log, to which it still appends its first line, every file is
    as it was, the output file included, and the table is returned as it
    was read. *)
Theorem process_dataset_skips_a_resolved_table :
  forall model input_file output_file batch_size w df0,
    read_csv input_file w = (Ok df0, w) ->
    batch_size <> 0 ->
    (forall r, In r df0 -> unresolved (Usecase r) = false) ->
    exists w',
      process_dataset model input_file output_file batch_size w
      = (Ok df0, w') /\
      calls w' = calls w /\ trace w' = trace w /\
      forall p, p <> LOG_FILE -> files w' p = files w p.
Proof.
  intros model input_file output_file batch_size w df0 Hread Hb Hres.
  exists w. split; [|auto].
  unfold process_dataset, bind. rewrite Hread.
  destruct (Nat.eqb_spec batch_size 0) as [|_]; [contradiction|].
  rewrite for_each_unchanged; [reflexivity|].
  intros j _. unfold process_batch.
  rewrite rows_to_process_all_resolved by exact Hres. reflexivity.
Qed.

Lemma process_dataset_skips_a_resolved_table_witness :
  let rows := [example_row "Crocin" (Some (py "fever"))] in
  let w := example_world rows in
  exists w',
    process_dataset always_rate_limited "in.csv" "out.csv" 50 w
    = (Ok rows, w') /\
    calls w' = calls w /\ trace w' = trace w /\
    forall p, p <> LOG_FILE -> files w' p = files w p.
Proof.
  intros rows w. apply process_dataset_skips_a_resolved_table.
  - reflexivity.
  - discriminate.
  - intros r [<-|[]]. reflexivity.
Defined.

(** X12: two failures of [process_dataset] before its first batch.
    Without its input file it raises at once and nothing has happened.
    With the input file and a batch size of zero it raises at the
    division that counts the batches: the model was not called and no
    table was saved; of all files only the progress log, which has its
    first line by then, can differ. *)
Theorem process_dataset_early_failures :
  forall model input_file output_file batch_size w,
    (files w input_file = None ->
     exists e, process_dataset model input_file output_file batch_size w
               = (Raised e, w)) /\
    (files w input_file <> None -> batch_size = 0 ->
     exists e w',
       process_dataset model input_file output_file batch_size w
       = (Raised e, w') /\
       calls w' = calls w /\ trace w' = trace w /\
       forall p, p <> LOG_FILE -> files w' p = files w p).
Proof.
  intros model input_file output_file batch_size w. split.
  - intros F. unfold process_dataset, bind, read_csv. rewrite F.
    eexists. reflexivity.
  - intros F ->. unfold process_dataset, bind, read_csv.
    destruct (files w input_file); [|contradiction].
    eexists _, w. split; [reflexivity|auto].
Qed.

Lemma process_dataset_early_failures_witness :
  let w := example_world [example_row "Crocin" None] in
  exists e w',
    process_dataset always_rate_limited "in.csv" "out.csv" 0 w
    = (Raised e, w') /\
    calls w' = calls w /\ trace w' = trace w /\
    forall p, p <> LOG_FILE -> files w' p = files w p.
Proof.
  intros w.
  apply (proj2 (process_dataset_early_failures
                  always_rate_limited "in.csv" "out.csv" 0 w)).
  - discriminate.
  - reflexivity.
Defined.

Lemma process_dataset_other_files :
  forall model input_file output_file batch_size w r w',
    process_dataset model input_file output_file batch_size w = (r, w') ->
    forall p, p <> output_file -> files w' p = files w p.
Proof.
  intros model input_file output_file batch_size w [df|e] w' H p Hp.
  - destruct (process_dataset_returns _ _ _ _ _ _ _ H)
      as (df0 & _ & _ & (_ & _ & Hf & _) & _).
    apply Hf. exact Hp.
  - apply process_dataset_raised in H. destruct H as [-> _]. reflexivity.
Qed.

(** X13: neither [process_dataset] nor [process_dataset_with_fallback]
    ever changes a file other than the output file and the progress log,
    however the run ends. *)
Theorem only_the_output_and_the_log_are_written :
  forall model input_file output_file batch_size w,
    (forall r w',
       process_dataset model input_file output_file batch_size w = (r, w') ->
       forall p, p <> output_file -> p <> LOG_FILE ->
                 files w' p = files w p) /\
    (forall r w',
       process_dataset_with_fallback model input_file output_file
         batch_size w = (r, w') ->
       forall p, p <> output_file -> p <> LOG_FILE ->
                 files w' p = files w p).
Proof.
  intros model input_file output_file batch_size w. split.
  - intros r w' H p Hp _. eapply process_dataset_other_files; eauto.
  - intros r w' H p Hp _.
    unfold process_dataset_with_fallback, bind in H.
    destruct (read_csv input_file w) as [[df_in|e] w1] eqn:R.
    + pose proof (read_csv_world _ _ _ _ R) as ->.
      unfold to_csv in H.
      rewrite (process_dataset_other_files _ _ _ _ _ _ _ H p Hp).
      simpl. unfold write_file.
      destruct (String.eqb_spec p output_file); [contradiction|reflexivity].
    + pose proof (read_csv_world _ _ _ _ R) as ->.
      injection H as _ <-. reflexivity.
Qed.

Lemma only_the_output_and_the_log_are_written_witness :
  let w := example_world [example_row "Crocin" None] in
  files (snd (process_dataset (always_answers "fever") "in.csv" "out.csv"
                50 w)) "in.csv"
  = files w "in.csv".
Proof.
  intros w.
  apply (proj1 (only_the_output_and_the_log_are_written
                  (always_answers "fever") "in.csv" "out.csv" 50 w)
           (fst (process_dataset (always_answers "fever") "in.csv" "out.csv"
                   50 w))).
  - apply surjective_pairing.
  - discriminate.
  - discriminate.
Defined.



Lemma validate_usecase_length :
  forall u, validate_usecase u = true -> length u <= 150.
Proof.
  intros u H. unfold validate_usecase in H.
  destruct (150 <? length u) eqn:L; [discriminate|].
  apply Nat.ltb_ge. exact L.
Qed.

(** X15: every usecase [process_dataset] writes into the table passes
    [validate_usecase], the sentinel included, and is at most 150
    characters long: a row that differs from the row that was read was
    unresolved and holds such a value. *)
Theorem process_dataset_stores_validated_usecases :
  forall model input_file output_file batch_size w df w',
    process_dataset model input_file output_file batch_size w = (Ok df, w') ->
    exists df0,
      read_csv input_file w = (Ok df0, w) /\
      forall i r0 r,
        nth_error df0 i = Some r0 -> nth_error df i = Some r -> r <> r0 ->
        unresolved (Usecase r0) = true /\
        exists u, Usecase r = Some u /\ validate_usecase u = true /\
                  length u <= 150.
Proof.
  intros model input_file output_file batch_size w df w' H.
  destruct (process_dataset_returns _ _ _ _ _ _ _ H)
    as (df0 & Hread & _ & ((_ & Hrows) & _) & _).
  exists df0. split; [exact Hread|]. intros i r0 r Hr0 Hr Hne.
  destruct (Hrows i r0 Hr0) as (r' & Hr' & Hok). simpl in Hr'.
  assert (r' = r) by congruence. subst r'.
  destruct Hok as [->|(U & u & Hu & ->)]; [contradiction|].
  split; [exact U|]. exists u. split; [reflexivity|].
  assert (V : validate_usecase u = true)
    by (destruct Hu as [Hu| ->]; [exact Hu|reflexivity]).
  split; [exact V|apply validate_usecase_length, V].
Qed.

Lemma process_dataset_stores_validated_usecases_witness :
  let row := example_row "Crocin" None in
  let w := example_world [row] in
  exists df0, read_csv "in.csv" w = (Ok df0, w).
Proof.
  intros row w.
  destruct (process_dataset_stores_validated_usecases
              (always_answers "It may help") "in.csv" "out.csv" 50 w
              [with_usecase (Some unknown) row]
              (snd (process_dataset (always_answers "It may help")
                      "in.csv" "out.csv" 50 w)))
    as (df0 & H & _).
  - vm_compute. reflexivity.
  - exists df0. exact H.
Defined.

(** ** The two passes together *)

(** X16: a row that the lookup table answers is never sent to the model:
    in a run of [process_dataset_with_fallback] that returns, an
    unresolved row whose name holds a key of the table is not queried and
    holds the value of the lookup in the table returned and in the
    output. *)
Theorem lookup_hits_are_never_queried :
  forall model input_file output_file batch_size w df w',
    process_dataset_with_fallback model input_file output_file batch_size w
    = (Ok df, w') ->
    exists df_in evs,
      read_csv input_file w = (Ok df_in, w) /\
      added w w' evs /\
      files w' output_file = Some (mkCsv true df) /\
      forall i r v,
        nth_error df_in i = Some r ->
        unresolved (Usecase r) = true ->
        get_usecase_from_lookup (name r)
          [short_composition1 r; short_composition2 r] = Some v ->
        ~ In i (queried evs) /\
        nth_error df i = Some (with_usecase (Some v) r).
Proof.
  intros model input_file output_file batch_size w df w' H.
  destruct (process_dataset_with_fallback_returns _ _ _ _ _ _ _ H)
    as (df_in & evs & Hread & Ha & He & Hrows & Hf).
  cbv zeta in *. set (df1 := map first_pass_row df_in) in *.
  exists df_in, (EvSave output_file df1 :: evs).
  split; [exact Hread|]. split; [exact Ha|]. split; [exact Hf|].
  intros i r v Hr U L.
  destruct (first_pass_row_cases r) as [[_ [C|C]]|(v' & _ & L' & E & R)];
    try congruence.
  assert (v' = v) by congruence. subst v'.
  assert (Hr1 : nth_error df1 i = Some (with_usecase (Some v) r)).
  { unfold df1. rewrite nth_error_map, Hr. simpl. rewrite E. reflexivity. }
  split.
  - cbn [queried]. rewrite in_queried. intros Hin.
    rewrite Forall_forall in He.
    destruct (He _ Hin) as (r' & Hr' & U').
    assert (r' = with_usecase (Some v) r) by congruence. subst r'.
    change (unresolved (Some v) = true) in U'. congruence.
  - eapply resolved_row_kept; eauto.
Qed.

Lemma lookup_hits_are_never_queried_witness :
  let row := example_row "Paracetamol 500" None in
  let w := example_world [row] in
  exists df_in evs,
    read_csv "in.csv" w = (Ok df_in, w) /\
    added w (snd (process_dataset_with_fallback always_rate_limited
                    "in.csv" "out.csv" 50 w)) evs.
Proof.
  intros row w.
  destruct (lookup_hits_are_never_queried always_rate_limited
              "in.csv" "out.csv" 50 w
              [with_usecase (Some (py "fever, pain, headache")) row]
              (snd (process_dataset_with_fallback always_rate_limited
                      "in.csv" "out.csv" 50 w)))
    as (df_in & evs & H1 & H2 & _).
  - vm_compute. reflexivity.
  - exists df_in, evs. auto.
Defined.

(** X17: two failures of [process_dataset_with_fallback].  Without its
    input file it raises at once and nothing has happened.  With a table
    whose rows all have a name and a batch size of zero it raises in the
    second pass, after the first pass was saved: the output file then
    holds the table of the first pass, the model was not called, and no
    other file but the progress log can differ. *)
Theorem process_dataset_with_fallback_early_failures :
  forall model input_file output_file batch_size w,
    (files w input_file = None ->
     exists e,
       process_dataset_with_fallback model input_file output_file
         batch_size w = (Raised e, w)) /\
    (forall df_in,
       read_csv input_file w = (Ok df_in, w) ->
       names_are_text df_in ->
       batch_size = 0 ->
       exists e w',
         process_dataset_with_fallback model input_file output_file
           batch_size w = (Raised e, w') /\
         files w' output_file
           = Some (mkCsv true (map first_pass_row df_in)) /\
         calls w' = calls w /\
         forall p, p <> output_file -> p <> LOG_FILE ->
                   files w' p = files w p).
Proof.
  intros model input_file output_file batch_size w. split.
  - intros F. unfold process_dataset_with_fallback, bind, read_csv.
    rewrite F. eexists. reflexivity.
  - intros df_in R _ ->.
    pose proof (first_pass_parsed _ (read_csv_parsed _ _ _ _ R)) as Hp.
    set (df1 := map first_pass_row df_in) in *.
    assert (Hfile : files (saved output_file df1 w) output_file
                    = Some (mkCsv true df1)).
    { simpl. unfold write_file. rewrite String.eqb_refl. reflexivity. }
    assert (Hread : read_csv output_file (saved output_file df1 w)
                    = (Ok df1, saved output_file df1 w)).
    { unfold read_csv. rewrite Hfile. simpl. rewrite Hp. reflexivity. }
    exists (py "ZeroDivisionError"), (saved output_file df1 w).
    split; [|split; [exact Hfile|split; [reflexivity|]]].
    + unfold process_dataset_with_fallback, bind. rewrite R.
      unfold to_csv. fold df1.
      unfold process_dataset, bind. rewrite Hread. reflexivity.
    + intros p Hp' _. simpl. unfold write_file.
      destruct (String.eqb_spec p output_file); [contradiction|reflexivity].
Qed.

Lemma process_dataset_with_fallback_early_failures_witness :
  let row := example_row "Paracetamol 500" None in
  let w := example_world [row] in
  exists e w',
    process_dataset_with_fallback always_rate_limited "in.csv" "out.csv" 0 w
    = (Raised e, w') /\
    files w' "out.csv" = Some (mkCsv true (map first_pass_row [row])).
Proof.
  intros row w.
  destruct (proj2 (process_dataset_with_fallback_early_failures
                     always_rate_limited "in.csv" "out.csv" 0 w) [row])
    as (e & w' & H1 & H2 & _).
  - reflexivity.
  - intros r [<-|[]]. reflexivity.
  - reflexivity.
  - exists e, w'. auto.
Defined.

(** ** The statistics *)

Lemma str_eqb_eq : forall a b, str_eqb a b = true <-> a = b.
Proof.
  intros a b. unfold str_eqb. rewrite andb_true_iff, Nat.eqb_eq. split.
  - intros [L S]. apply starts_with_spec in S. destruct S as (rest & ->).
    rewrite length_app in L.
    destruct rest; [symmetry; apply app_nil_r|simpl in L; lia].
  - intros ->. split; [reflexivity|].
    apply starts_with_spec. exists []. symmetry. apply app_nil_r.
Qed.

Lemma statistics_partition :
  forall df,
    length df
    = null_count df + unknown_count df
      + length (filter (fun r => negb (unresolved (Usecase r))) df)
      + length (filter (fun r => match Usecase r with
                                 | Some s => is_empty s
                                 | None => false
                                 end) df).
Proof.
  unfold null_count, unknown_count.
  induction df as [|r df IH]; [reflexivity|].
  cbn [filter length]. destruct (Usecase r) as [s|]; cbn [unresolved negb].
  - destruct s as [|c s].
    + simpl. lia.
    + change (is_empty (c :: s)) with false.
      change (str_eqb (c :: s) []) with false. cbn [orb].
      destruct (str_eqb (c :: s) unknown); simpl; lia.
  - simpl. lia.
Qed.

(** X18: the count the entry point prints as "Medicines with usecases"
    is the number of resolved rows plus the number of rows whose usecase
    is the empty string: an empty usecase, unresolved for the
    orchestrator, is counted as a usecase.  The three printed counts add
    up to the number of rows. *)
Theorem statistics_count_empty_as_usecase :
  forall df,
    with_usecases df
    = length (filter (fun r => negb (unresolved (Usecase r))) df)
      + length (filter (fun r => match Usecase r with
                                 | Some s => is_empty s
                                 | None => false
                                 end) df) /\
    with_usecases df + unknown_count df + null_count df = length df.
Proof.
  intros df. pose proof (statistics_partition df) as H.
  unfold with_usecases. lia.
Qed.

(** ** Resuming *)




